(** * FrankenPHP worker extensions: the request pipe, the default worker and
      the worker registry

    A shallow embedding of [workerextension.go] (interface [Worker],
    [RegisterWorker], [startWorker], [NewWorker], [defaultWorker]) and of
    [threadFramework.go] (interface [WorkerExtension],
    [RegisterExternalWorker], [startExternalWorkerPipe]).

    Go pointers that may be nil are [option]s, the registry maps are
    [gmap string _], [atomic.Int32] counters are [Z] with the 32-bit
    wrap-around written out, channels follow the queue discipline of the Go
    runtime, and the effects of a pipe loop (logging, sending on the worker's
    request channel, spawning the goroutine that waits for completion) are
    state passing on an explicit [pipe_state]. *)

From Stdlib Require Import ZArith Lia Ascii String.
From stdpp Require Import base option list gmap strings.

(** ** 32-bit atomic counters ([sync/atomic.Int32]) *)

Definition int32_min : Z := (-2147483648)%Z.
Definition int32_max : Z := 2147483647%Z.

Definition is_int32 (z : Z) : Prop := (int32_min <= z <= int32_max)%Z.

(** Two's complement wrap-around of a mathematical integer into [int32]. *)
Definition wrap32 (z : Z) : Z := ((z + 2 ^ 31) mod 2 ^ 32 - 2 ^ 31)%Z.

(** [Add(delta)] on an [atomic.Int32]: the new value of the counter. *)
Definition atomic_Int32_Add (delta : Z) (v : Z) : Z := wrap32 (v + delta).

(** ** Go channels

    [hchan] follows [runtime/chan.go]: a buffer of capacity [dataqsiz], the
    queue [sendq] of the values of the senders parked on a full (or
    unbuffered) channel, and the queue [recvq] of the goroutines parked in a
    receive.  Both wait queues are first-in first-out.  [delivered] is the
    history of the completed receive operations, oldest first: which
    goroutine got which value. *)

Record hchan (V : Type) : Type := mk_hchan {
  dataqsiz : nat;
  buf : list V;
  sendq : list V;
  recvq : list nat;
  delivered : list (nat * V)
}.
Arguments mk_hchan {V} _ _ _ _ _.
Arguments dataqsiz {V} _.
Arguments buf {V} _.
Arguments sendq {V} _.
Arguments recvq {V} _.
Arguments delivered {V} _.

(** [make(chan V, n)]; [make(chan V)] is [make_chan 0]. *)
Definition make_chan {V : Type} (n : nat) : hchan V :=
  mk_hchan n [] [] [] [].

(** [c <- v].  A parked receiver is served at once; otherwise the value goes
    to the buffer when there is room, and else the sender parks. *)
Definition chansend {V : Type} (v : V) (c : hchan V) : hchan V :=
  match recvq c with
  | g :: gs =>
      mk_hchan (dataqsiz c) (buf c) (sendq c) gs (delivered c ++ [(g, v)])
  | [] =>
      if bool_decide (length (buf c) < dataqsiz c)
      then mk_hchan (dataqsiz c) (buf c ++ [v]) (sendq c) [] (delivered c)
      else mk_hchan (dataqsiz c) (buf c) (sendq c ++ [v]) [] (delivered c)
  end.

(** [<-c] by goroutine [g].  The head of the buffer is taken, and the first
    parked sender moves its value to the tail of the buffer; on an empty
    buffer the first parked sender hands its value over directly; with
    nothing to take the receiver parks.  The second component is the value
    the call returns with, [None] when the caller is parked. *)
Definition chanrecv {V : Type} (g : nat) (c : hchan V) : hchan V * option V :=
  match buf c with
  | v :: b =>
      match sendq c with
      | s :: ss =>
          (mk_hchan (dataqsiz c) (b ++ [s]) ss (recvq c) (delivered c ++ [(g, v)]),
           Some v)
      | [] =>
          (mk_hchan (dataqsiz c) b [] (recvq c) (delivered c ++ [(g, v)]), Some v)
      end
  | [] =>
      match sendq c with
      | s :: ss =>
          (mk_hchan (dataqsiz c) [] ss (recvq c) (delivered c ++ [(g, s)]), Some s)
      | [] =>
          (mk_hchan (dataqsiz c) [] [] (recvq c ++ [g]) (delivered c), None)
      end
  end.

(** The values sent and not yet received, oldest first. *)
Definition pending {V : Type} (c : hchan V) : list V := buf c ++ sendq c.

(** The values received so far, oldest first. *)
Definition received {V : Type} (c : hchan V) : list V := (delivered c).*2.

(** What the runtime maintains: a receiver parks only on a channel with
    nothing to take, a sender only on a channel whose buffer is full. *)
Definition chan_wf {V : Type} (c : hchan V) : Prop :=
  (recvq c ≠ [] → buf c = [] ∧ sendq c = []) ∧
  (sendq c ≠ [] → dataqsiz c ≤ length (buf c)).

(** ** External types

    The Go types that the two files only pass around. *)

Class GoTypes : Type := {
  HttpRequest : Type;      (* what a non-nil [*http.Request] points to *)
  ResponseWriter : Type;   (* a non-nil [http.ResponseWriter] *)
  Any : Type;              (* a non-nil value of type [any] *)
  GoError : Type;          (* a non-nil [error] *)
  Func : Type;             (* a non-nil [func(callbackReturn any)] *)
  Ctx : Type;              (* a [context.Context] *)
  Logger : Type;           (* what a non-nil [*slog.Logger] points to *)
  FcOther : Type           (* the fields of [frankenPHPContext] that the
                              two files never name *)
}.

Definition PreparedEnv : Type := gmap string string.

(** A panic of the Go runtime ends the process. *)
Inductive result (A : Type) : Type :=
| Ok (a : A)
| Panic (reason : string).
Arguments Ok {A} a.
Arguments Panic {A} reason.

Definition nil_dereference : string :=
  "invalid memory address or nil pointer dereference".

Section DataModel.
Context `{GoTypes}.

(** [WorkerRequest] of [workerextension.go]; [threadFramework.go] declares
    [WorkerRequest[P, R]], which its interface and its pipe use at
    [[any, any]] only.  A nil field is [None]. *)
Record WorkerRequest : Type := mk_WorkerRequest {
  Request : option HttpRequest;
  Response : option ResponseWriter;
  CallbackParameters : option Any;
  AfterFunc : option Func
}.

(** The fields of the package's [worker] and [phpThread] that the pipes
    read.  The worker's [requestChan] is part of [pipe_state]. *)
Record worker : Type := mk_worker { name : string }.
Record phpThread : Type := mk_phpThread { threadIndex : Z }.

(** [frankenPHPContext]: the fields the pipes and the goroutines they spawn
    touch.  [done] is the completion channel, [true] once it is closed. *)
Record frankenPHPContext : Type := mk_fc {
  fc_logger : option Logger;
  fc_worker : option worker;
  responseWriter : option ResponseWriter;
  handlerParameters : option Any;
  handlerReturn : option Any;
  done : bool;
  fc_other : FcOther
}.

(** [log/slog] records. *)
Inductive Level : Type := LevelDebug | LevelInfo | LevelWarn | LevelError.

Inductive Attr : Type :=
| slog_String (key : string) (value : string)
| slog_Int (key : string) (value : Z)
| slog_Any (key : string) (value : GoError).

Record LogRecord : Type := mk_LogRecord {
  level : Level;
  msg : string;
  attrs : list Attr
}.

(** The options the pipes hand to [NewRequestWithContext]. *)
Inductive RequestOption : Type :=
| WithOriginalRequest (r : HttpRequest)
| WithWorkerName (n : string).

(** ** The interface [Worker] of [workerextension.go]

    A method that updates the receiver returns the new receiver.
    [ProvideRequest] is called by a goroutine and returns the receiver
    together with the pointer the call returns with, [None] while the
    caller is parked. *)
Class Worker (W : Type) : Type := {
  Name : W → string;
  FileName : W → string;
  Env : W → PreparedEnv;
  GetMinThreads : W → Z;
  ThreadActivatedNotification : Z → W → W;
  ThreadDrainNotification : Z → W → W;
  ThreadDeactivatedNotification : Z → W → W;
  ProvideRequest : nat → W → W * option (option WorkerRequest);
  InjectRequest : option WorkerRequest → W → W
}.

(** [extensionWorkers[worker.Name()] = worker], under the mutex. *)
Definition RegisterWorker {W : Type} `{!Worker W}
    (w : W) (extensionWorkers : gmap string W) : gmap string W :=
  <[Name w := w]> extensionWorkers.

(** ** [defaultWorker] *)
Record defaultWorker : Type := mk_defaultWorker {
  dw_name : string;
  dw_fileName : string;
  dw_env : PreparedEnv;
  dw_minThreads : Z;
  dw_requestChan : hchan (option WorkerRequest);
  activatedCount : Z;
  drainCount : Z
}.

Definition NewWorker (name fileName : string) (minThreads : Z)
    (env : PreparedEnv) : defaultWorker :=
  {| dw_name := name;
     dw_fileName := fileName;
     dw_env := env;
     dw_minThreads := minThreads;
     dw_requestChan := make_chan 0;
     activatedCount := 0;
     drainCount := 0 |}.

Definition set_requestChan (c : hchan (option WorkerRequest))
    (w : defaultWorker) : defaultWorker :=
  mk_defaultWorker (dw_name w) (dw_fileName w) (dw_env w) (dw_minThreads w)
    c (activatedCount w) (drainCount w).

Definition set_counts (a d : Z) (w : defaultWorker) : defaultWorker :=
  mk_defaultWorker (dw_name w) (dw_fileName w) (dw_env w) (dw_minThreads w)
    (dw_requestChan w) a d.

#[export] Instance defaultWorker_Worker : Worker defaultWorker := {
  Name w := dw_name w;
  FileName w := dw_fileName w;
  Env w := dw_env w;
  GetMinThreads w := dw_minThreads w;
  ThreadActivatedNotification _ w :=
    set_counts (atomic_Int32_Add 1 (activatedCount w)) (drainCount w) w;
  ThreadDrainNotification _ w :=
    set_counts (activatedCount w) (atomic_Int32_Add 1 (drainCount w)) w;
  ThreadDeactivatedNotification _ w :=
    let d := atomic_Int32_Add (-1) (drainCount w) in
    set_counts (atomic_Int32_Add (-1) (activatedCount w)) d w;
  ProvideRequest g w :=
    let (c, r) := chanrecv g (dw_requestChan w) in (set_requestChan c w, r);
  InjectRequest r w :=
    set_requestChan (chansend r (dw_requestChan w)) w
}.

(** The counters hold [int32] values. *)
Definition counters_wf (w : defaultWorker) : Prop :=
  is_int32 (activatedCount w) ∧ is_int32 (drainCount w).

(** Sequences of calls on a default worker: the producers' and the pipes'
    calls on the queue, and the pool manager's lifecycle notifications. *)
Inductive queue_call : Type :=
| Inject (r : option WorkerRequest)
| Provide (g : nat).

Definition do_call (w : defaultWorker) (c : queue_call) : defaultWorker :=
  match c with
  | Inject r => InjectRequest r w
  | Provide g => (ProvideRequest g w).1
  end.

Definition do_calls (cs : list queue_call) (w : defaultWorker)
    : defaultWorker :=
  foldl do_call w cs.

Inductive notification : Type := Activated | Drain | Deactivated.

Definition notify (w : defaultWorker) (n : notification * Z)
    : defaultWorker :=
  match n.1 with
  | Activated => ThreadActivatedNotification n.2 w
  | Drain => ThreadDrainNotification n.2 w
  | Deactivated => ThreadDeactivatedNotification n.2 w
  end.

Definition notify_all (ns : list (notification * Z)) (w : defaultWorker)
    : defaultWorker :=
  foldl notify w ns.

End DataModel.

(** ** The pipes

    The functions of the package that the pipes call and that live in other
    files.  [newFrankenPHPContext] and [fromContext] return a pointer to a
    context: here they give the context pointed to, which the pipe places at
    a fresh address of its store. *)

Class Collaborators `{GoTypes} : Type := {
  logger : Logger;
  newFrankenPHPContext : frankenPHPContext;
  NewRequestWithContext :
    HttpRequest → list RequestOption → GoError + HttpRequest;
  Context : HttpRequest → Ctx;
  fromContext : Ctx → option frankenPHPContext
}.

Section Pipe.
Context `{GoTypes} `{!Collaborators}.

(** The goroutine [go func() { <-fc.done; ... }()] spawned by iteration
    [wt_iter]: it has captured [rq] and [fc]. *)
Record waiter : Type := mk_waiter {
  wt_iter : nat;
  wt_rq : WorkerRequest;
  wt_fc : nat
}.

(** What the pipe, the engine and the waiting goroutines do, as seen from
    outside, oldest first.  [it] numbers the iterations of the loop. *)
Inductive event : Type :=
| EvLog (r : LogRecord)
| EvSend (it : nat) (a : nat) (rq : WorkerRequest)
| EvDone (a : nat) (v : option Any)
| EvCall (it : nat) (f : Func) (v : option Any).

(** [heap] holds the contexts, a pointer being an index into it; [iter]
    counts the iterations begun; [waiters] are the goroutines blocked on a
    [done] channel. *)
Record pipe_state : Type := mk_pipe_state {
  heap : list frankenPHPContext;
  iter : nat;
  waiters : list waiter;
  trace : list event
}.

Definition init_state : pipe_state := mk_pipe_state [] 0 [] [].

(** The contexts sent on the worker's [requestChan], oldest first. *)
Definition sent_of (e : event) : option nat :=
  match e with EvSend _ a _ => Some a | _ => None end.
Definition requestChan (st : pipe_state) : list nat :=
  omap sent_of (trace st).

(** The records logged, oldest first. *)
Definition logged_of (e : event) : option LogRecord :=
  match e with EvLog r => Some r | _ => None end.
Definition logged (st : pipe_state) : list LogRecord :=
  omap logged_of (trace st).

(** The callback invocations of iteration [it]. *)
Definition call_of (it : nat) (e : event) : option (Func * option Any) :=
  match e with
  | EvCall it' f v => if bool_decide (it' = it) then Some (f, v) else None
  | _ => None
  end.
Definition calls (it : nat) (tr : list event) : list (Func * option Any) :=
  omap (call_of it) tr.

Definition emit (e : event) (st : pipe_state) : pipe_state :=
  mk_pipe_state (heap st) (iter st) (waiters st) (trace st ++ [e]).

(** [logger.LogAttrs(context.Background(), lvl, m, attrs...)] *)
Definition LogAttrs (lvl : Level) (m : string) (l : list Attr)
    (st : pipe_state) : pipe_state :=
  emit (EvLog (mk_LogRecord lvl m l)) st.

(** The loop goes to its next iteration. *)
Definition continue (st : pipe_state) : pipe_state :=
  mk_pipe_state (heap st) (S (iter st)) (waiters st) (trace st).

(** The tail both loops share, from [w.requestChan <- fc] on: the context,
    placed at the fresh address, is sent; when [rq.AfterFunc != nil] the
    waiting goroutine is spawned.  The send returns once the engine has
    taken the context. *)
Definition dispatch (rq : WorkerRequest) (fc : frankenPHPContext)
    (st : pipe_state) : pipe_state :=
  let a := length (heap st) in
  let ws :=
    match AfterFunc rq with
    | Some _ => waiters st ++ [mk_waiter (iter st) rq a]
    | None => waiters st
    end in
  mk_pipe_state (heap st ++ [fc]) (iter st) ws
    (trace st ++ [EvSend (iter st) a rq]).

Definition who (w : worker) (thread : phpThread) : list Attr :=
  [slog_String "worker" (name w); slog_Int "thread" (threadIndex thread)].

(** One iteration of the loop of [startWorker], [rq] being what
    [extensionWorker.ProvideRequest()] returned. *)
Definition startWorker_iter (w : worker) (thread : phpThread)
    (rq : option WorkerRequest) (st : pipe_state) : result pipe_state :=
  match rq with
  | None => Panic nil_dereference
  | Some rq =>
      let queue (fc : frankenPHPContext) : result pipe_state :=
        let fc := mk_fc (fc_logger fc) (Some w) (Response rq)
                    (CallbackParameters rq) (handlerReturn fc) (done fc)
                    (fc_other fc) in
        let st := LogAttrs LevelInfo "queue the external worker request"
                    (who w thread) st in
        Ok (continue (dispatch rq fc st)) in
      match Request rq with
      | None =>
          let fc := newFrankenPHPContext in
          queue (mk_fc (Some logger) (fc_worker fc) (responseWriter fc)
                   (handlerParameters fc) (handlerReturn fc) (done fc)
                   (fc_other fc))
      | Some r =>
          match NewRequestWithContext r [WithOriginalRequest r] with
          | inl err =>
              Ok (continue
                    (LogAttrs LevelError
                       "error creating request for external worker"
                       (who w thread ++ [slog_Any "error" err]) st))
          | inr fr =>
              match fromContext (Context fr) with
              | None => Ok (continue st)
              | Some fc => queue fc
              end
          end
      end
  end.

(** One iteration of the loop of [startExternalWorkerPipe]. *)
Definition startExternalWorkerPipe_iter (w : worker) (thread : phpThread)
    (rq : option WorkerRequest) (st : pipe_state) : result pipe_state :=
  let nil_request :=
    Ok (continue
          (LogAttrs LevelWarn "external worker provided nil request"
             (who w thread) st)) in
  match rq with
  | None => nil_request
  | Some rq =>
      match Request rq with
      | None => nil_request
      | Some r =>
          match NewRequestWithContext r
                  [WithOriginalRequest r; WithWorkerName (name w)] with
          | inl err =>
              Ok (continue
                    (LogAttrs LevelError
                       "error creating request for external worker"
                       (who w thread ++ [slog_Any "error" err]) st))
          | inr fr =>
              match fromContext (Context fr) with
              | Some fc =>
                  let fc := mk_fc (fc_logger fc) (fc_worker fc) (Response rq)
                              (CallbackParameters rq) (handlerReturn fc)
                              (done fc) (fc_other fc) in
                  let st := LogAttrs LevelInfo
                              "queue the external worker request"
                              (who w thread) st in
                  Ok (continue (dispatch rq fc st))
              | None => Ok (continue st)
              end
          end
      end
  end.

(** Which of the two loops runs on the thread. *)
Inductive pipe : Type := StartWorker | StartExternalWorkerPipe.

Definition pipe_iter (p : pipe) (w : worker) (thread : phpThread)
    (rq : option WorkerRequest) (st : pipe_state) : result pipe_state :=
  match p with
  | StartWorker => startWorker_iter w thread rq st
  | StartExternalWorkerPipe => startExternalWorkerPipe_iter w thread rq st
  end.

(** The options each loop hands to [NewRequestWithContext] for the
    request [r]. *)
Definition request_options (p : pipe) (w : worker) (r : HttpRequest)
    : list RequestOption :=
  match p with
  | StartWorker => [WithOriginalRequest r]
  | StartExternalWorkerPipe => [WithOriginalRequest r; WithWorkerName (name w)]
  end.

(** What [ProvideRequest] returned carries no payload: it is nil, or its
    [Request] is. *)
Definition absent (rq : option WorkerRequest) : Prop :=
  match rq with
  | None => True
  | Some rq => Request rq = None
  end.

(** The payload of [rq] adapts, and the adapted request carries the
    context [fc]. *)
Definition adapts_to (p : pipe) (w : worker) (rq : WorkerRequest)
    (fc : frankenPHPContext) : Prop :=
  ∃ r fr, Request rq = Some r ∧
          NewRequestWithContext r (request_options p w r) = inr fr ∧
          fromContext (Context fr) = Some fc.

(** The engine finishes the context at [a]: it stores the handler's return
    value and closes [done].  A context is finished at most once. *)
Definition engine_done (a : nat) (v : option Any) (st : pipe_state)
    : pipe_state :=
  match heap st !! a with
  | Some fc =>
      if done fc then st
      else
        let fc := mk_fc (fc_logger fc) (fc_worker fc) (responseWriter fc)
                    (handlerParameters fc) v true (fc_other fc) in
        mk_pipe_state (<[a := fc]> (heap st)) (iter st) (waiters st)
          (trace st ++ [EvDone a v])
  | None => st
  end.

(** The [k]-th waiting goroutine is scheduled.  It stays blocked in
    [<-fc.done] until the channel is closed; then it tests [rq.AfterFunc]
    again, calls it with [fc.handlerReturn], and ends. *)
Definition wake (k : nat) (st : pipe_state) : pipe_state :=
  match waiters st !! k with
  | Some wt =>
      match heap st !! wt_fc wt with
      | Some fc =>
          if done fc then
            let st := mk_pipe_state (heap st) (iter st)
                        (delete k (waiters st)) (trace st) in
            match AfterFunc (wt_rq wt) with
            | Some f => emit (EvCall (wt_iter wt) f (handlerReturn fc)) st
            | None => st
            end
          else st
      | None => st
      end
  | None => st
  end.

(** The process around one pipe: the loop takes what [ProvideRequest]
    returned and runs one iteration, the engine finishes a context, or a
    waiting goroutine is scheduled. *)
Inductive action : Type :=
| Provided (rq : option WorkerRequest)
| EngineDone (a : nat) (v : option Any)
| Wake (k : nat).

Definition step (p : pipe) (w : worker) (thread : phpThread) (act : action)
    (st : pipe_state) : result pipe_state :=
  match act with
  | Provided rq => pipe_iter p w thread rq st
  | EngineDone a v => Ok (engine_done a v st)
  | Wake k => Ok (wake k st)
  end.

Fixpoint run (p : pipe) (w : worker) (thread : phpThread)
    (acts : list action) (st : pipe_state) : result pipe_state :=
  match acts with
  | [] => Ok st
  | act :: acts =>
      match step p w thread act st with
      | Ok st => run p w thread acts st
      | Panic r => Panic r
      end
  end.

(** The loop alone, on the requests [ProvideRequest] returns one after
    the other. *)
Definition pipe_loop (p : pipe) (w : worker) (thread : phpThread)
    (rqs : list (option WorkerRequest)) (st : pipe_state)
    : result pipe_state :=
  run p w thread (Provided <$> rqs) st.

(** Every waiting goroutine is scheduled once, the last spawned first; the
    ones whose context is not finished stay blocked. *)
Fixpoint wake_all (n : nat) (st : pipe_state) : pipe_state :=
  match n with
  | 0 => st
  | S n => wake_all n (wake n st)
  end.

Definition settle (st : pipe_state) : pipe_state :=
  wake_all (length (waiters st)) st.

(** The contexts the collaborators hand out are not finished yet. *)
Definition contexts_start_open : Prop :=
  done newFrankenPHPContext = false ∧
  ∀ c fc, fromContext c = Some fc → done fc = false.

(** A goroutine of iteration [it] is blocked on its context. *)
Definition parked (it : nat) (st : pipe_state) : Prop :=
  it ∈ wt_iter <$> waiters st.

(** A waiting goroutine whose context is finished: it can run. *)
Definition ready (st : pipe_state) (wt : waiter) : Prop :=
  ∃ fc, heap st !! wt_fc wt = Some fc ∧ done fc = true.

(** What holds of the state of a pipe at all times: the sends are numbered
    by the iterations begun and address contexts of the store, an iteration
    sends at most once, a goroutine waits for the context its iteration
    sent and has a callback, a call comes after the send of its iteration,
    and an iteration that sent with a callback has either its goroutine
    parked and no call yet, or no goroutine any more and one call. *)
Record pipe_inv (st : pipe_state) : Prop := mk_pipe_inv {
  inv_sent_lt : ∀ it a rq,
    EvSend it a rq ∈ trace st → it < iter st ∧ a < length (heap st);
  inv_sent_uniq : ∀ it a rq a' rq',
    EvSend it a rq ∈ trace st → EvSend it a' rq' ∈ trace st →
    a = a' ∧ rq = rq';
  inv_waiter : ∀ wt,
    wt ∈ waiters st →
    EvSend (wt_iter wt) (wt_fc wt) (wt_rq wt) ∈ trace st ∧
    is_Some (AfterFunc (wt_rq wt));
  inv_nodup : NoDup (wt_iter <$> waiters st);
  inv_call_sent : ∀ tr1 tr2 it f v,
    trace st = tr1 ++ EvCall it f v :: tr2 →
    ∃ a rq, EvSend it a rq ∈ tr1 ∧ AfterFunc rq = Some f;
  inv_count : ∀ it a rq,
    EvSend it a rq ∈ trace st → is_Some (AfterFunc rq) →
    (parked it st ∧ calls it (trace st) = []) ∨
    (¬ parked it st ∧ length (calls it (trace st)) = 1)
}.

(** [st'] comes later than [st]: its trace continues that of [st], and the
    sends added belong to iterations not begun in [st]. *)
Definition extends (st st' : pipe_state) : Prop :=
  iter st ≤ iter st' ∧
  ∃ es, trace st' = trace st ++ es ∧
        ∀ it a rq, EvSend it a rq ∈ es → iter st ≤ it.

(** The [done] channels against the trace: a context is finished exactly
    when the engine has finished it, with the value it holds, and a call
    comes after the engine has finished the context of its iteration, with
    that value. *)
Record done_inv (st : pipe_state) : Prop := mk_done_inv {
  inv_done_ev : ∀ a fc,
    heap st !! a = Some fc → done fc = true →
    EvDone a (handlerReturn fc) ∈ trace st;
  inv_ev_done : ∀ a v,
    EvDone a v ∈ trace st →
    ∃ fc, heap st !! a = Some fc ∧ done fc = true ∧ handlerReturn fc = v;
  inv_call_done : ∀ tr1 tr2 it f v,
    trace st = tr1 ++ EvCall it f v :: tr2 →
    ∃ a rq, EvSend it a rq ∈ tr1 ∧ EvDone a v ∈ tr1
}.

End Pipe.

(** ** [threadFramework.go]: the interface and the registry *)

Module ThreadFramework.
Section Interface.
Context `{GoTypes}.

Class WorkerExtension (W : Type) : Type := {
  Name : W → string;
  FileName : W → string;
  Env : W → PreparedEnv;
  GetMinThreads : W → Z;
  ThreadActivatedNotification : Z → W → W;
  ThreadDrainNotification : Z → W → W;
  ThreadDeactivatedNotification : Z → W → W;
  ProvideRequest : nat → W → W * option (option WorkerRequest)
}.

(** [externalWorkers[worker.Name()] = worker], under the mutex. *)
Definition RegisterExternalWorker {W : Type} `{!WorkerExtension W}
    (w : W) (externalWorkers : gmap string W) : gmap string W :=
  <[Name w := w]> externalWorkers.

End Interface.
End ThreadFramework.

(** ** Fixtures

    Concrete external types and collaborators on which the definitions
    evaluate: requests are URLs, and [NewRequestWithContext] rejects the
    empty one. *)

#[export] Instance string_types : GoTypes := {
  HttpRequest := string;
  ResponseWriter := nat;
  Any := Z;
  GoError := string;
  Func := string;
  Ctx := string;
  Logger := unit;
  FcOther := list (string * string)
}.

Definition blank_context : frankenPHPContext :=
  mk_fc None None None None None false [].

#[export] Instance string_collaborators : Collaborators := {
  logger := tt;
  newFrankenPHPContext := blank_context;
  NewRequestWithContext r opts :=
    if bool_decide (r = "") then inl "empty url" else inr r;
  Context r := r;
  fromContext c :=
    if bool_decide (c = "no-context") then None
    else Some (mk_fc None None None None None false [("url", c)])
}.

Definition mockWorker : defaultWorker :=
  NewWorker "mockWorker" "testdata/worker.php" 1 ∅.

(** Two workers registered under one name. *)
Definition mockWorker_a : defaultWorker :=
  NewWorker "mockWorker" "a.php" 1 ∅.
Definition mockWorker_b : defaultWorker :=
  NewWorker "mockWorker" "b.php" 2 ∅.

Definition get_test : WorkerRequest :=
  mk_WorkerRequest (Some "https://example.com/test/?foo=bar") (Some 1%nat)
    None (Some "close(done)").

Definition admin_call : WorkerRequest :=
  mk_WorkerRequest None None (Some 42%Z) (Some "after").

(** A request whose payload does not adapt, and one whose adapted
    request carries no context. *)
Definition malformed : WorkerRequest :=
  mk_WorkerRequest (Some "") (Some 2%nat) None (Some "never").

Definition no_context : WorkerRequest :=
  mk_WorkerRequest (Some "no-context") (Some 3%nat) None (Some "never").

Definition engine_worker : worker := mk_worker "mockWorker".
Definition thread3 : phpThread := mk_phpThread 3.

(** The context the fixtures' [fromContext] finds in the adapted
    [get_test]. *)
Definition get_test_context : frankenPHPContext :=
  mk_fc None None None None None false
    [("url", "https://example.com/test/?foo=bar")].

(** A run: [get_test] is provided and sent, the engine finishes its context
    with the value 200, and the waiting goroutine is scheduled. *)
Definition get_test_run : list action :=
  [Provided (Some get_test); EngineDone 0 (Some 200%Z); Wake 0].

Definition get_test_served : pipe_state :=
  Eval cbv in
    match run StartWorker engine_worker thread3 get_test_run init_state with
    | Ok st => st
    | Panic _ => init_state
    end.

(** A run of [startExternalWorkerPipe] over every kind of request: without
    payload, malformed, without context, served, and nil. *)
Definition mixed_run : list action :=
  [Provided (Some admin_call); Provided (Some malformed);
   Provided (Some no_context); Provided (Some get_test);
   EngineDone 0 (Some 200%Z); Wake 0; Provided None].

Definition mixed_served : pipe_state :=
  Eval cbv in
    match run StartExternalWorkerPipe engine_worker thread3 mixed_run
            init_state with
    | Ok st => st
    | Panic _ => init_state
    end.

(** A run of [startWorker] that leaves one of two goroutines waiting. *)
Definition two_goroutines_run : list action :=
  [Provided (Some get_test); Provided (Some admin_call);
   EngineDone 0 (Some 200%Z); Wake 0].

Definition two_goroutines_served : pipe_state :=
  Eval cbv in
    match run StartWorker engine_worker thread3 two_goroutines_run
            init_state with
    | Ok st => st
    | Panic _ => init_state
    end.

#[export] Instance defaultWorker_WorkerExtension
    : ThreadFramework.WorkerExtension defaultWorker := {
  ThreadFramework.Name := Name;
  ThreadFramework.FileName := FileName;
  ThreadFramework.Env := Env;
  ThreadFramework.GetMinThreads := GetMinThreads;
  ThreadFramework.ThreadActivatedNotification := ThreadActivatedNotification;
  ThreadFramework.ThreadDrainNotification := ThreadDrainNotification;
  ThreadFramework.ThreadDeactivatedNotification :=
    ThreadDeactivatedNotification;
  ThreadFramework.ProvideRequest := ProvideRequest
}.

(** ** Observations on sequences of calls and on runs *)

Section Observations.
Context `{GoTypes} `{!Collaborators}.

(** The requests injected by a sequence of calls on the queue, and the
    goroutines that called [ProvideRequest], both in the order of the
    calls. *)
Definition injected (cs : list queue_call) : list (option WorkerRequest) :=
  omap (λ c, match c with Inject r => Some r | Provide _ => None end) cs.

Definition callers (cs : list queue_call) : list nat :=
  omap (λ c, match c with Provide g => Some g | Inject _ => None end) cs.

(** How many notifications of one kind a sequence holds. *)
Definition same_kind (k k' : notification) : bool :=
  match k, k' with
  | Activated, Activated | Drain, Drain | Deactivated, Deactivated => true
  | _, _ => false
  end.

Definition count_kind (k : notification) (ns : list (notification * Z)) : Z :=
  Z.of_nat (length (filter (λ n, same_kind k n.1 = true) ns)).

(** Calls on a default worker of both kinds, interleaved at will. *)
Definition do_worker_call (w : defaultWorker)
    (c : queue_call + notification * Z) : defaultWorker :=
  match c with
  | inl q => do_call w q
  | inr n => notify w n
  end.

Definition queue_calls_of (l : list (queue_call + notification * Z))
    : list queue_call :=
  omap (λ c, match c with inl q => Some q | inr _ => None end) l.

Definition notifications_of (l : list (queue_call + notification * Z))
    : list (notification * Z) :=
  omap (λ c, match c with inl _ => None | inr n => Some n end) l.

(** Registering workers one after the other. *)
Definition RegisterWorkers {W : Type} `{!Worker W}
    (hs : list W) (extensionWorkers : gmap string W) : gmap string W :=
  foldl (λ m h, RegisterWorker h m) extensionWorkers hs.

(** Whether a loop sends a context for the request [rq]: [startWorker]
    does for a request without payload, and both do when the payload
    adapts and the adapted request carries a context. *)
Definition serves (p : pipe) (w : worker) (rq : WorkerRequest) : bool :=
  match Request rq with
  | None =>
      match p with StartWorker => true | StartExternalWorkerPipe => false end
  | Some r =>
      match NewRequestWithContext r (request_options p w r) with
      | inl _ => false
      | inr fr =>
          match fromContext (Context fr) with Some _ => true | None => false end
      end
  end.

Definition served (p : pipe) (w : worker) (rq : option WorkerRequest)
    : option WorkerRequest :=
  match rq with
  | Some rq => if serves p w rq then Some rq else None
  | None => None
  end.

(** The record a loop logs for what [ProvideRequest] returned, if any. *)
Definition log_of (p : pipe) (w : worker) (thread : phpThread)
    (rq : option WorkerRequest) : option LogRecord :=
  let info :=
    mk_LogRecord LevelInfo "queue the external worker request"
      (who w thread) in
  let warn :=
    mk_LogRecord LevelWarn "external worker provided nil request"
      (who w thread) in
  let absent_record :=
    match p with StartWorker => info | StartExternalWorkerPipe => warn end in
  match rq with
  | None =>
      match p with StartWorker => None | StartExternalWorkerPipe => Some warn end
  | Some rq =>
      match Request rq with
      | None => Some absent_record
      | Some r =>
          match NewRequestWithContext r (request_options p w r) with
          | inl err =>
              Some (mk_LogRecord LevelError
                      "error creating request for external worker"
                      (who w thread ++ [slog_Any "error" err]))
          | inr fr =>
              match fromContext (Context fr) with
              | Some _ => Some info
              | None => None
              end
          end
      end
  end.

(** What [ProvideRequest] returned to the loop in the course of a run. *)
Definition provided_of (act : action) : option (option WorkerRequest) :=
  match act with Provided rq => Some rq | _ => None end.
Definition provided (acts : list action) : list (option WorkerRequest) :=
  omap provided_of acts.

(** The requests whose context was sent, the sends that spawned a waiting
    goroutine, and the calls made, oldest first. *)
Definition sent_rq_of (e : event) : option WorkerRequest :=
  match e with EvSend _ _ rq => Some rq | _ => None end.
Definition sent_requests (st : pipe_state) : list WorkerRequest :=
  omap sent_rq_of (trace st).

Definition spawned_of (e : event) : option nat :=
  match e with
  | EvSend it _ rq => match AfterFunc rq with Some _ => Some it | None => None end
  | _ => None
  end.
Definition spawned (st : pipe_state) : list nat := omap spawned_of (trace st).

Definition called_of (e : event) : option nat :=
  match e with EvCall it _ _ => Some it | _ => None end.
Definition called (st : pipe_state) : list nat := omap called_of (trace st).

(** What the loop [p] of worker [w] has set in the context it sent for
    [rq]. *)
Definition carries (p : pipe) (w : worker) (rq : WorkerRequest)
    (fc : frankenPHPContext) : Prop :=
  responseWriter fc = Response rq ∧
  handlerParameters fc = CallbackParameters rq ∧
  match p with
  | StartWorker => fc_worker fc = Some w
  | StartExternalWorkerPipe => True
  end.

End Observations.

(** ** [internal/extgen/validator.go]

    The validator of the signatures from which the extension generator
    makes PHP bindings.  [phpType] is a string type; its constants, the
    node structs and the Go parser are declared outside the file. *)

Module Extgen.

Abbreviation phpType := string.

(** The constants of type [phpType].  The file compares them in [switch]
    statements, where the Go compiler refuses two equal constants. *)
Class PhpTypeNames : Type := {
  phpString : phpType;
  phpInt : phpType;
  phpFloat : phpType;
  phpBool : phpType;
  phpArray : phpType;
  phpObject : phpType;
  phpMixed : phpType;
  phpVoid : phpType;
  phpNull : phpType;
  phpTrue : phpType;
  phpFalse : phpType
}.

(** The fields of the node structs that the validator reads. *)
Record phpParameter : Type := mk_phpParameter {
  param_Name : string;
  PhpType : phpType;
  IsNullable : bool
}.

Record phpFunction : Type := mk_phpFunction {
  fn_Name : string;
  Params : list phpParameter;
  ReturnType : phpType;
  GoFunction : string
}.

Record phpClassProperty : Type := mk_phpClassProperty {
  prop_Name : string;
  prop_PhpType : phpType
}.

Record phpClass : Type := mk_phpClass {
  class_Name : string;
  Properties : list phpClassProperty
}.

(** The errors of the validator, one constructor for each format string,
    with the arguments of the format; [%w] wraps an error. *)
Inductive verror : Type :=
| FunctionNameEmpty                     (* function name cannot be empty *)
| FunctionNameInvalid (name : string)   (* invalid function name: %s *)
| InParameter (i : nat) (name : string) (err : verror)
                                        (* parameter %d (%s): %w *)
| InReturnType (err : verror)           (* return type: %w *)
| ParameterNameEmpty                    (* parameter name cannot be empty *)
| ParameterNameInvalid (name : string)  (* invalid parameter name: %s *)
| ParameterTypeInvalid (t : phpType)    (* invalid parameter type: %s *)
| ReturnTypeInvalid (t : phpType)       (* invalid return type: %s *)
| ClassNameEmpty                        (* class name cannot be empty *)
| ClassNameInvalid (name : string)      (* invalid class name: %s *)
| InProperty (i : nat) (name : string) (err : verror)
                                        (* property %d (%s): %w *)
| PropertyNameEmpty                     (* property name cannot be empty *)
| PropertyNameInvalid (name : string)   (* invalid property name: %s *)
| PropertyTypeInvalid (t : phpType)     (* invalid property type: %s *)
| ParameterUnsupported (n : nat) (name : string) (t : phpType)
                          (* parameter %d %q has unsupported type %q, ... *)
| ReturnTypeUnsupported (t : phpType)
                          (* return type %q is not supported, ... *)
| NoGoFunction (name : string)
                          (* no Go function found for PHP function %q *)
| ParseFailed (err : string)            (* failed to parse Go function: %w *)
| NoFunctionDeclaration
                          (* no function declaration found in Go function *)
| ParameterCountMismatch (php go : nat)
                          (* parameter count mismatch: PHP function has %d
                             parameters but Go function has %d *)
| ParameterTypeMismatch (n : nat) (t : phpType) (expected actual : string)
                          (* parameter %d type mismatch: PHP %q requires Go
                             type %q but found %q *)
| ReturnTypeMismatch (t : phpType) (expected actual : string).
                          (* return type mismatch: PHP %q requires Go
                             return type %q but found %q *)

(** The pattern [^[a-zA-Z_][a-zA-Z0-9_]*$] of the four name regexps,
    matched against the whole string, byte by byte: a byte outside ASCII
    is in none of the classes. *)
Definition between (lo hi c : ascii) : bool :=
  (nat_of_ascii lo <=? nat_of_ascii c) && (nat_of_ascii c <=? nat_of_ascii hi).

Definition name_start (c : ascii) : bool :=
  between "a"%char "z"%char c || between "A"%char "Z"%char c
  || Ascii.eqb c "_"%char.

Definition name_char (c : ascii) : bool :=
  name_start c || between "0"%char "9"%char c.

Fixpoint all_chars (f : ascii → bool) (s : string) : bool :=
  match s with
  | EmptyString => true
  | String c s => f c && all_chars f s
  end.

Definition name_pattern (s : string) : bool :=
  match s with
  | EmptyString => false
  | String c s => name_start c && all_chars name_char s
  end.

(** [functionNameRegex.MatchString] and its three siblings. *)
Definition functionNameRegex : string → bool := name_pattern.
Definition parameterNameRegex : string → bool := name_pattern.
Definition classNameRegex : string → bool := name_pattern.
Definition propNameRegex : string → bool := name_pattern.

(** The syntax trees of [go/ast] that the validator inspects. *)
Inductive Expr : Type :=
| Ident (Name : string)
| StarExpr (X : Expr)
| SelectorExpr (X : Expr) (Sel : string)
| OtherExpr.

Record Field : Type := mk_Field {
  Names : list string;
  FieldType : Expr
}.

(** [Recv], [Type.Params] and [Type.Results] of an [*ast.FuncDecl]; a nil
    field list is [None]. *)
Record FuncDecl : Type := mk_FuncDecl {
  Recv : option (list Field);
  TypeParams : option (list Field);
  TypeResults : option (list Field)
}.

Inductive Decl : Type :=
| FuncDeclOf (f : FuncDecl)
| OtherDecl.

(** [parser.ParseFile(fset, "", src, 0)]: an error or the declarations of
    the file. *)
Class GoParser : Type := {
  ParseFile : string → string + list Decl
}.

Definition newline : string := String (ascii_of_nat 10) EmptyString.

(** [strings.Join] *)
Fixpoint Join (elems : list string) (sep : string) : string :=
  match elems with
  | [] => EmptyString
  | [x] => x
  | x :: elems => String.append x (String.append sep (Join elems sep))
  end.

Section Validator.
Context `{PhpTypeNames} `{GoParser}.

Definition paramTypes : list phpType :=
  [phpString; phpInt; phpFloat; phpBool; phpArray; phpObject; phpMixed].
Definition returnTypes : list phpType :=
  [phpVoid; phpString; phpInt; phpFloat; phpBool; phpArray; phpObject;
   phpMixed; phpNull; phpTrue; phpFalse].
Definition propTypes : list phpType :=
  [phpString; phpInt; phpFloat; phpBool; phpArray; phpObject; phpMixed].
Definition supportedTypes : list phpType :=
  [phpString; phpInt; phpFloat; phpBool; phpArray; phpMixed].

(** [slices.Contains] *)
Definition Contains (l : list phpType) (t : phpType) : bool :=
  bool_decide (t ∈ l).

Definition validateParameter (param : phpParameter) : option verror :=
  if bool_decide (param_Name param = "") then Some ParameterNameEmpty
  else if negb (parameterNameRegex (param_Name param))
  then Some (ParameterNameInvalid (param_Name param))
  else if negb (Contains paramTypes (PhpType param))
  then Some (ParameterTypeInvalid (PhpType param))
  else None.

Definition validateReturnType (returnType : phpType) : option verror :=
  if negb (Contains returnTypes returnType)
  then Some (ReturnTypeInvalid returnType)
  else None.

(** The loop [for i, param := range fn.Params] of [validateFunction], from
    index [i] on. *)
Fixpoint validateParameters (i : nat) (params : list phpParameter)
    : option verror :=
  match params with
  | [] => None
  | param :: params =>
      match validateParameter param with
      | Some err => Some (InParameter i (param_Name param) err)
      | None => validateParameters (S i) params
      end
  end.

Definition validateFunction (fn : phpFunction) : option verror :=
  if bool_decide (fn_Name fn = "") then Some FunctionNameEmpty
  else if negb (functionNameRegex (fn_Name fn))
  then Some (FunctionNameInvalid (fn_Name fn))
  else
    match validateParameters 0 (Params fn) with
    | Some err => Some err
    | None =>
        match validateReturnType (ReturnType fn) with
        | Some err => Some (InReturnType err)
        | None => None
        end
    end.

Definition validateClassProperty (prop : phpClassProperty) : option verror :=
  if bool_decide (prop_Name prop = "") then Some PropertyNameEmpty
  else if negb (propNameRegex (prop_Name prop))
  then Some (PropertyNameInvalid (prop_Name prop))
  else if negb (Contains propTypes (prop_PhpType prop))
  then Some (PropertyTypeInvalid (prop_PhpType prop))
  else None.

Fixpoint validateProperties (i : nat) (props : list phpClassProperty)
    : option verror :=
  match props with
  | [] => None
  | prop :: props =>
      match validateClassProperty prop with
      | Some err => Some (InProperty i (prop_Name prop) err)
      | None => validateProperties (S i) props
      end
  end.

Definition validateClass (class : phpClass) : option verror :=
  if bool_decide (class_Name class = "") then Some ClassNameEmpty
  else if negb (classNameRegex (class_Name class))
  then Some (ClassNameInvalid (class_Name class))
  else validateProperties 0 (Properties class).

(** The loop of [validateTypes], from index [i] on; it reports [i+1]. *)
Fixpoint validateParamTypes (i : nat) (params : list phpParameter)
    : option verror :=
  match params with
  | [] => None
  | param :: params =>
      if negb (Contains supportedTypes (PhpType param))
      then Some (ParameterUnsupported (i + 1) (param_Name param)
                   (PhpType param))
      else validateParamTypes (S i) params
  end.

Definition validateTypes (fn : phpFunction) : option verror :=
  match validateParamTypes 0 (Params fn) with
  | Some err => Some err
  | None =>
      if negb (bool_decide (ReturnType fn = phpVoid)) &&
         negb (Contains supportedTypes (ReturnType fn))
      then Some (ReturnTypeUnsupported (ReturnType fn))
      else None
  end.

Definition phpTypeToGoType (t : phpType) (isNullable : bool) : string :=
  let baseType :=
    if bool_decide (t = phpString) then "*C.zend_string"
    else if bool_decide (t = phpInt) then "int64"
    else if bool_decide (t = phpFloat) then "float64"
    else if bool_decide (t = phpBool) then "bool"
    else if bool_decide (t = phpArray) || bool_decide (t = phpMixed)
    then "*C.zval"
    else "any" in
  if isNullable && negb (bool_decide (t = phpString))
     && negb (bool_decide (t = phpArray))
  then String.append "*" baseType
  else baseType.

Definition isCompatibleGoType (expectedType actualType : string) : bool :=
  if bool_decide (expectedType = actualType) then true
  else if bool_decide (expectedType = "int64")
  then bool_decide (actualType = "int")
  else if bool_decide (expectedType = "*int64")
  then bool_decide (actualType = "*int")
  else if bool_decide (expectedType = "*float64")
  then bool_decide (actualType = "*float32")
  else false.

Definition phpReturnTypeToGoType (phpReturnType : phpType) : string :=
  if bool_decide (phpReturnType = phpVoid) then ""
  else if bool_decide (phpReturnType = phpString) then "unsafe.Pointer"
  else if bool_decide (phpReturnType = phpInt) then "int64"
  else if bool_decide (phpReturnType = phpFloat) then "float64"
  else if bool_decide (phpReturnType = phpBool) then "bool"
  else if bool_decide (phpReturnType = phpArray) then "unsafe.Pointer"
  else "any".

Fixpoint goTypeToString (expr : Expr) : string :=
  match expr with
  | Ident name => name
  | StarExpr x => String.append "*" (goTypeToString x)
  | SelectorExpr x sel =>
      String.append (goTypeToString x) (String.append "." sel)
  | OtherExpr => "unknown"
  end.

Definition goReturnTypeToString (results : option (list Field)) : string :=
  match results with
  | None | Some [] => ""
  | Some [field] => goTypeToString (FieldType field)
  | Some fields =>
      String.append "("
        (String.append (Join (goTypeToString ∘ FieldType <$> fields) ", ") ")")
  end.

(** The first [*ast.FuncDecl] among the declarations. *)
Fixpoint firstFuncDecl (decls : list Decl) : option FuncDecl :=
  match decls with
  | [] => None
  | FuncDeclOf f :: _ => Some f
  | OtherDecl :: decls => firstFuncDecl decls
  end.

(** The loop over [phpFunc.Params] that compares the types, from index [i]
    on; it stops without an error at a Go index out of range. *)
Fixpoint checkParamTypes (paramOffset i : nat) (goParams : list Field)
    (params : list phpParameter) : option verror :=
  match params with
  | [] => None
  | phpParam :: params =>
      match goParams !! (i + paramOffset) with
      | None => None
      | Some goParam =>
          let expectedGoType :=
            phpTypeToGoType (PhpType phpParam) (IsNullable phpParam) in
          let actualGoType := goTypeToString (FieldType goParam) in
          if negb (isCompatibleGoType expectedGoType actualGoType)
          then Some (ParameterTypeMismatch (i + 1) (PhpType phpParam)
                       expectedGoType actualGoType)
          else checkParamTypes paramOffset (S i) goParams params
      end
  end.

Definition goParamCount (goFunc : FuncDecl) : nat :=
  match TypeParams goFunc with
  | Some l => length l
  | None => 0
  end.

Definition hasReceiver (goFunc : FuncDecl) : bool :=
  match Recv goFunc with
  | Some l => 0 <? length l
  | None => false
  end.

(** [paramOffset] and [effectiveGoParamCount]. *)
Definition paramOffset (goFunc : FuncDecl) (isMethod : bool) : nat :=
  if hasReceiver goFunc then 0
  else if isMethod && (0 <? goParamCount goFunc) then 1
  else 0.

Definition effectiveGoParamCount (goFunc : FuncDecl) (isMethod : bool) : nat :=
  if hasReceiver goFunc then goParamCount goFunc
  else if isMethod && (0 <? goParamCount goFunc) then goParamCount goFunc - 1
  else goParamCount goFunc.

Definition validateGoFunctionSignatureWithOptions (phpFunc : phpFunction)
    (isMethod : bool) : option verror :=
  if bool_decide (GoFunction phpFunc = "")
  then Some (NoGoFunction (fn_Name phpFunc))
  else
    match ParseFile (String.append "package main"
                       (String.append newline (GoFunction phpFunc))) with
    | inl err => Some (ParseFailed err)
    | inr decls =>
        match firstFuncDecl decls with
        | None => Some NoFunctionDeclaration
        | Some goFunc =>
            let effective := effectiveGoParamCount goFunc isMethod in
            if negb (length (Params phpFunc) =? effective)
            then Some (ParameterCountMismatch (length (Params phpFunc))
                         effective)
            else
              let checked :=
                match TypeParams goFunc with
                | Some goParams =>
                    if 0 <? length (Params phpFunc)
                    then checkParamTypes (paramOffset goFunc isMethod) 0
                           goParams (Params phpFunc)
                    else None
                | None => None
                end in
              match checked with
              | Some err => Some err
              | None =>
                  let expectedGoReturnType :=
                    phpReturnTypeToGoType (ReturnType phpFunc) in
                  let actualGoReturnType :=
                    goReturnTypeToString (TypeResults goFunc) in
                  if negb (isCompatibleGoType expectedGoReturnType
                             actualGoReturnType)
                  then Some (ReturnTypeMismatch (ReturnType phpFunc)
                               expectedGoReturnType actualGoReturnType)
                  else None
              end
        end
    end.

(** The constants of [phpType] are pairwise distinct. *)
Definition php_types_distinct : Prop :=
  NoDup [phpString; phpInt; phpFloat; phpBool; phpArray; phpObject;
         phpMixed; phpVoid; phpNull; phpTrue; phpFalse].

End Validator.

(** Fixtures: the names of the PHP types, and a parser that knows three
    sources. *)
#[export] Instance php_type_names : PhpTypeNames := {
  phpString := "string";
  phpInt := "int";
  phpFloat := "float";
  phpBool := "bool";
  phpArray := "array";
  phpObject := "object";
  phpMixed := "mixed";
  phpVoid := "void";
  phpNull := "null";
  phpTrue := "true";
  phpFalse := "false"
}.

Definition int64_field : Field := mk_Field ["n"] (Ident "int64").
Definition zend_string_field : Field :=
  mk_Field ["s"] (StarExpr (SelectorExpr (Ident "C") "zend_string")).

(** [func repeat(s *C.zend_string, n int64) unsafe.Pointer] and
    [func pair(n int64) (int64, error)]. *)
Definition repeat_decl : FuncDecl :=
  mk_FuncDecl None (Some [zend_string_field; int64_field])
    (Some [mk_Field [] (SelectorExpr (Ident "unsafe") "Pointer")]).

Definition pair_decl : FuncDecl :=
  mk_FuncDecl None (Some [int64_field])
    (Some [mk_Field [] (Ident "int64"); mk_Field [] (Ident "error")]).

(** [func (c *Counter) get() int64] *)
Definition counter_get_decl : FuncDecl :=
  mk_FuncDecl (Some [mk_Field ["c"] (StarExpr (Ident "Counter"))]) (Some [])
    (Some [mk_Field [] (Ident "int64")]).

#[export] Instance known_sources : GoParser := {
  ParseFile src :=
    if bool_decide (src = String.append "package main"
                            (String.append newline "func repeat"))
    then inr [OtherDecl; FuncDeclOf repeat_decl]
    else if bool_decide (src = String.append "package main"
                                 (String.append newline "func pair"))
    then inr [FuncDeclOf pair_decl]
    else if bool_decide (src = String.append "package main"
                                 (String.append newline "func get"))
    then inr [FuncDeclOf counter_get_decl]
    else inl "syntax error"
}.

Definition repeat_function : phpFunction :=
  mk_phpFunction "repeat"
    [mk_phpParameter "s" "string" false; mk_phpParameter "n" "int" false]
    "string" "func repeat".


Definition get_method : phpFunction :=
  mk_phpFunction "get" [] "int" "func get".

(** A function with a parameter of type object, one whose second parameter
    and return type do not validate, and a class. *)
Definition store_function : phpFunction :=
  mk_phpFunction "store"
    [mk_phpParameter "key" "string" false;
     mk_phpParameter "value" "object" true]
    "void" "func store".

Definition sum_function : phpFunction :=
  mk_phpFunction "sum"
    [mk_phpParameter "a" "int" false; mk_phpParameter "2nd" "int" false]
    "resource" "func sum".

Definition point_class : phpClass :=
  mk_phpClass "Point"
    [mk_phpClassProperty "x" "float"; mk_phpClassProperty "y" "float"].

End Extgen.

(** * Properties *)

(** ** Lifecycle counters of the default worker *)

Lemma wrap32_id (z : Z) : is_int32 z → wrap32 z = z.
Proof.
  unfold is_int32, int32_min, int32_max, wrap32. intros Hz.
  change (2 ^ 31)%Z with 2147483648%Z. change (2 ^ 32)%Z with 4294967296%Z.
  rewrite Z.mod_small; lia.
Qed.

Lemma wrap32_range (z : Z) : is_int32 (wrap32 z).
Proof.
  unfold is_int32, int32_min, int32_max, wrap32.
  change (2 ^ 31)%Z with 2147483648%Z. change (2 ^ 32)%Z with 4294967296%Z.
  pose proof (Z.mod_pos_bound (z + 2147483648) 4294967296 ltac:(lia)). lia.
Qed.

Lemma wrap32_add_cancel (z d : Z) :
  is_int32 z → wrap32 (wrap32 (z + d) + - d) = z.
Proof.
  intros Hz. rewrite <- (wrap32_id z Hz) at 2.
  unfold wrap32.
  change (2 ^ 31)%Z with 2147483648%Z. change (2 ^ 32)%Z with 4294967296%Z.
  f_equal.
  replace ((z + d + 2147483648) mod 4294967296 - 2147483648 + - d + 2147483648)%Z
    with ((z + d + 2147483648) mod 4294967296 + - d)%Z by lia.
  rewrite Z.add_mod_idemp_l by lia. f_equal. lia.
Qed.

Section CounterProperties.
Context `{GoTypes}.

(** C5: on the default worker, [ThreadActivatedNotification(t)] followed by
    [ThreadDrainNotification(t)] and [ThreadDeactivatedNotification(t)]
    leaves [activatedCount] and [drainCount] at the values they had before
    the three calls; indeed the whole worker is unchanged. *)
Theorem activate_drain_deactivate_net_zero (t : Z) (w : defaultWorker) :
  counters_wf w →
  let w' :=
    ThreadDeactivatedNotification t
      (ThreadDrainNotification t (ThreadActivatedNotification t w)) in
  activatedCount w' = activatedCount w ∧ drainCount w' = drainCount w ∧
  w' = w.
Proof.
  intros [Ha Hd]. cbn. unfold atomic_Int32_Add.
  pose proof (wrap32_add_cancel (activatedCount w) 1 Ha) as Ea.
  pose proof (wrap32_add_cancel (drainCount w) 1 Hd) as Ed.
  change (- (1))%Z with (-1)%Z in Ea, Ed. rewrite Ea, Ed.
  destruct w; done.
Qed.

(** C6: every [ThreadDeactivatedNotification] on the default worker takes
    one off [drainCount] and one off [activatedCount], both of them, as
    32-bit atomic additions of -1: the plain predecessor unless the counter
    stands at the least [int32].  The call reads nothing but the two
    counters, so it does the same after a [ThreadDrainNotification] for the
    thread as without one. *)
Theorem deactivated_decrements_both (t t' : Z) (w : defaultWorker) :
  counters_wf w →
  let deact := ThreadDeactivatedNotification (W := defaultWorker) t in
  let drained := ThreadDrainNotification t' w in
  (activatedCount (deact w) = wrap32 (activatedCount w - 1) ∧
   drainCount (deact w) = wrap32 (drainCount w - 1)) ∧
  (activatedCount (deact drained) = wrap32 (activatedCount drained - 1) ∧
   drainCount (deact drained) = wrap32 (drainCount drained - 1)) ∧
  (int32_min < activatedCount w →
   activatedCount (deact w) = activatedCount w - 1 ∧
   activatedCount (deact drained) = activatedCount drained - 1)%Z ∧
  (int32_min < drainCount w →
   drainCount (deact w) = drainCount w - 1)%Z ∧
  (int32_min < drainCount drained →
   drainCount (deact drained) = drainCount drained - 1)%Z.
Proof.
  intros [Ha Hd]. cbn. unfold atomic_Int32_Add.
  assert (Hdr : is_int32 (wrap32 (drainCount w + 1))) by apply wrap32_range.
  split; [done|]. split; [done|].
  unfold is_int32, int32_min, int32_max in *.
  split; [intros Hlt; split|split; intros Hlt];
    apply wrap32_id; unfold is_int32, int32_min, int32_max; lia.
Qed.

(** C10: on the default worker no lifecycle notification looks at its
    thread id: from one counter state, a notification gives the same
    worker whatever the id, and two sequences of notifications of the same
    kinds in the same order, made by whatever threads, end in the same
    worker. *)
Theorem notifications_ignore_thread_id
    (t1 t2 : Z) (w : defaultWorker) (ns1 ns2 : list (notification * Z)) :
  ThreadActivatedNotification t1 w = ThreadActivatedNotification t2 w ∧
  ThreadDrainNotification t1 w = ThreadDrainNotification t2 w ∧
  ThreadDeactivatedNotification t1 w = ThreadDeactivatedNotification t2 w ∧
  (ns1.*1 = ns2.*1 → notify_all ns1 w = notify_all ns2 w).
Proof.
  repeat split. unfold notify_all.
  revert ns2 w. induction ns1 as [|[k a] ns1 IH]; intros [|[k' b] ns2] w Heq;
    simplify_eq/=; [done|].
  rewrite (IH ns2); [|done]. done.
Qed.

End CounterProperties.

(** ** The registries *)

(** C8: registering two workers of one name leaves the registry with the
    second under that name, exactly as if the first had never been
    registered, and registering a worker again changes nothing; so do
    [RegisterWorker] and [RegisterExternalWorker]. *)
Theorem register_last_writer_wins `{GoTypes} {W X : Type}
    `{!Worker W} `{!ThreadFramework.WorkerExtension X}
    (h1 h2 : W) (m : gmap string W) (x1 x2 : X) (mx : gmap string X) :
  Name h1 = Name h2 →
  ThreadFramework.Name x1 = ThreadFramework.Name x2 →
  (RegisterWorker h2 (RegisterWorker h1 m) !! Name h1 = Some h2 ∧
   RegisterWorker h2 (RegisterWorker h1 m) = RegisterWorker h2 m ∧
   RegisterWorker h1 (RegisterWorker h1 m) = RegisterWorker h1 m) ∧
  (let reg := @ThreadFramework.RegisterExternalWorker _ X _ in
   reg x2 (reg x1 mx) !! ThreadFramework.Name x1 = Some x2 ∧
   reg x2 (reg x1 mx) = reg x2 mx ∧
   reg x1 (reg x1 mx) = reg x1 mx).
Proof.
  intros Hn Hx. unfold RegisterWorker, ThreadFramework.RegisterExternalWorker.
  cbn zeta. rewrite Hn, Hx.
  rewrite !insert_insert_eq, !lookup_insert_eq. done.
Qed.

(** ** The queue of the default worker *)

Section ChannelProperties.
Context {V : Type}.
Implicit Types (c : hchan V) (v : V) (g : nat).

Lemma make_chan_wf (n : nat) : chan_wf (make_chan (V := V) n).
Proof. by split. Qed.

Lemma chansend_wf c v : chan_wf c → chan_wf (chansend v c).
Proof.
  destruct c as [n b s r d]. unfold chan_wf, chansend. cbn.
  intros [Hr Hs]. destruct r as [|g r]; cbn.
  - case_bool_decide; cbn; split; try done.
    + intros Hne. destruct s as [|x s]; [done|].
      specialize (Hs ltac:(done)). lia.
    + intros _. lia.
  - destruct (Hr ltac:(done)) as [-> ->]. split; [done|]. done.
Qed.

Lemma chanrecv_wf c g : chan_wf c → chan_wf (chanrecv g c).1.
Proof.
  destruct c as [n b s r d]. unfold chan_wf, chanrecv. cbn.
  intros [Hr Hs]. destruct b as [|v b], s as [|x s]; cbn.
  - split; [done|done].
  - split; [|intros _; specialize (Hs ltac:(done)); cbn in Hs; lia].
    intros Hne. by destruct (Hr Hne).
  - split; [|done]. intros Hne. by destruct (Hr Hne).
  - split; [intros Hne; by destruct (Hr Hne)|].
    intros _. specialize (Hs ltac:(done)). cbn in Hs.
    rewrite length_app. cbn. lia.
Qed.

(** Sending appends to the values in flight, in the order of the sends. *)
Lemma chansend_fifo c v :
  chan_wf c →
  received (chansend v c) ++ pending (chansend v c) =
  received c ++ pending c ++ [v].
Proof.
  destruct c as [n b s r d]. unfold chan_wf, chansend, received, pending. cbn.
  intros [Hr Hs]. destruct r as [|g r]; cbn.
  - case_bool_decide; cbn.
    + destruct s as [|x s]; [by rewrite !app_nil_r|].
      specialize (Hs ltac:(done)). lia.
    + by rewrite <- !app_assoc.
  - destruct (Hr ltac:(done)) as [-> ->]. cbn.
    by rewrite fmap_app, app_nil_r.
Qed.

(** Receiving takes the oldest value in flight. *)
Lemma chanrecv_fifo c g :
  received (chanrecv g c).1 ++ pending (chanrecv g c).1 =
  received c ++ pending c.
Proof.
  destruct c as [n b s r d]. unfold chanrecv, received, pending. cbn.
  destruct b as [|v b], s as [|x s]; cbn;
    rewrite ?fmap_app, ?app_nil_r, <- ?app_assoc; done.
Qed.

Lemma chanrecv_returns c g :
  (chanrecv g c).2 = head (pending c).
Proof.
  destruct c as [n b s r d]. unfold chanrecv, pending. cbn.
  by destruct b as [|v b], s as [|x s].
Qed.

Lemma chanrecv_received_mono c g :
  received c `prefix_of` received (chanrecv g c).1.
Proof.
  destruct c as [n b s r d]. unfold chanrecv, received. cbn.
  destruct b as [|v b], s as [|x s]; cbn; rewrite ?fmap_app;
    try apply prefix_app_r; done.
Qed.

End ChannelProperties.

Section QueueProperties.
Context `{GoTypes}.
Implicit Types (w : defaultWorker) (r : option WorkerRequest).

Lemma do_call_wf w (c : queue_call) :
  chan_wf (dw_requestChan w) → chan_wf (dw_requestChan (do_call w c)).
Proof.
  intros Hwf. destruct c as [r|g]; cbn.
  - by apply chansend_wf.
  - pose proof (chanrecv_wf (dw_requestChan w) g Hwf) as Hr.
    by destruct (chanrecv g (dw_requestChan w)).
Qed.

Lemma do_calls_wf (cs : list queue_call) w :
  chan_wf (dw_requestChan w) → chan_wf (dw_requestChan (do_calls cs w)).
Proof.
  revert w. induction cs as [|c cs IH]; intros w Hwf; [done|].
  apply IH. by apply do_call_wf.
Qed.

Lemma provides_fifo (gs : list nat) w :
  received (dw_requestChan (do_calls (Provide <$> gs) w)) `prefix_of`
    received (dw_requestChan w) ++ pending (dw_requestChan w).
Proof.
  revert w. induction gs as [|g gs IH]; intros w.
  - apply prefix_app_r. done.
  - cbn. etrans; [apply IH|].
    pose proof (chanrecv_fifo (dw_requestChan w) g) as Hf.
    destruct (chanrecv g (dw_requestChan w)) as [c o]. cbn in *.
    by rewrite Hf.
Qed.

(** C3 as the code has it: whatever [minThreads] is, the queue of the worker
    [NewWorker] builds is one channel without a buffer.  [InjectRequest]
    sends on it and [ProvideRequest] receives from it, so an injected
    request stays with its parked sender, which a later [ProvideRequest]
    releases, and a request injected while a [ProvideRequest] is parked is
    handed to that caller. *)
Theorem NewWorker_queue_unbuffered
    (name fileName : string) (minThreads : Z) (env : PreparedEnv)
    (r : option WorkerRequest) (g : nat) :
  let w := NewWorker name fileName minThreads env in
  GetMinThreads w = minThreads ∧
  dataqsiz (dw_requestChan w) = 0 ∧
  (∀ w', dw_requestChan (InjectRequest r w') = chansend r (dw_requestChan w') ∧
         ProvideRequest g w' =
           (set_requestChan (chanrecv g (dw_requestChan w')).1 w',
            (chanrecv g (dw_requestChan w')).2)) ∧
  (buf (dw_requestChan (InjectRequest r w)) = [] ∧
   sendq (dw_requestChan (InjectRequest r w)) = [r]) ∧
  ProvideRequest g (InjectRequest r w) =
    (set_requestChan (mk_hchan 0 [] [] [] [(g, r)]) w, Some r) ∧
  (ProvideRequest g w).2 = None ∧
  dw_requestChan (InjectRequest r (ProvideRequest g w).1) =
    mk_hchan 0 [] [] [] [(g, r)].
Proof.
  intros w. split; [done|]. split; [done|]. split; [|done].
  intros w'. cbn. split; [done|]. by destruct (chanrecv g (dw_requestChan w')).
Qed.

(** C7: on a default worker, after any calls on its queue, let [A] and then
    [B] be injected and let any goroutines call [ProvideRequest] afterwards.
    What the [ProvideRequest] calls have returned, in the order they
    returned, is then an initial part of: what was received before, what
    was in flight, [A], [B].  In particular, when nothing was in flight and
    no caller was parked, the next [ProvideRequest] returns [A] and the one
    after it returns [B]. *)
Theorem default_queue_fifo
    (name fileName : string) (minThreads : Z) (env : PreparedEnv)
    (before : list queue_call) (A B : option WorkerRequest)
    (after : list nat) (g1 g2 : nat) :
  let w := do_calls before (NewWorker name fileName minThreads env) in
  let w2 := InjectRequest B (InjectRequest A w) in
  received (dw_requestChan (do_calls (Provide <$> after) w2)) `prefix_of`
    received (dw_requestChan w) ++ pending (dw_requestChan w) ++ [A; B] ∧
  (pending (dw_requestChan w) = [] → recvq (dw_requestChan w) = [] →
   (ProvideRequest g1 w2).2 = Some A ∧
   (ProvideRequest g2 (ProvideRequest g1 w2).1).2 = Some B).
Proof.
  intros w w2.
  assert (Hwf : chan_wf (dw_requestChan w)).
  { apply do_calls_wf. apply make_chan_wf. }
  assert (Hwf1 : chan_wf (dw_requestChan (InjectRequest A w))).
  { by apply (do_call_wf w (Inject A)). }
  assert (Hfifo : received (dw_requestChan w2) ++ pending (dw_requestChan w2) =
                  received (dw_requestChan w) ++ pending (dw_requestChan w) ++ [A; B]).
  { unfold w2. cbn. rewrite chansend_fifo by done.
    rewrite app_assoc. rewrite chansend_fifo by done.
    by rewrite <- !app_assoc. }
  split.
  - rewrite <- Hfifo. apply provides_fifo.
  - intros Hp Hr.
    assert (Hc : dw_requestChan w2 =
                 mk_hchan 0 [] [A; B] [] (delivered (dw_requestChan w))).
    { assert (Hq : dataqsiz (dw_requestChan w) = 0).
      { unfold w. clear. induction before as [|c cs IH] using rev_ind; [done|].
        unfold do_calls. rewrite foldl_app. cbn.
        destruct c as [r|g]; cbn; unfold chansend, chanrecv;
          repeat case_match; simplify_eq/=; done. }
      unfold w2. cbn. unfold chansend. rewrite Hr. cbn.
      apply app_eq_nil in Hp as [Hb Hs]. rewrite Hb, Hs, Hq. cbn. done. }
    cbn. cbn in Hc. rewrite Hc. cbn. done.
Qed.

End QueueProperties.

(** ** The pipes *)

Section PipeInvariant.
Context `{GoTypes} `{!Collaborators}.
Implicit Types (st : pipe_state) (tr : list event) (e : event).

Lemma snoc_split {A : Type} (l : list A) (e : A) (l1 : list A) (x : A)
    (l2 : list A) :
  l ++ [e] = l1 ++ x :: l2 →
  (l2 = [] ∧ l1 = l ∧ x = e) ∨
  (∃ l2', l2 = l2' ++ [e] ∧ l = l1 ++ x :: l2').
Proof.
  induction l2 as [|y l2 _] using rev_ind; intros Heq.
  - apply app_inj_tail in Heq as [-> ->]. by left.
  - rewrite app_comm_cons, app_assoc in Heq.
    apply app_inj_tail in Heq as [-> ->]. right. by exists l2.
Qed.

Lemma calls_snoc (it : nat) tr e :
  calls it (tr ++ [e]) =
  calls it tr ++ match call_of it e with Some c => [c] | None => [] end.
Proof.
  unfold calls. rewrite omap_app. cbn. by destruct (call_of it e).
Qed.

Lemma called_split (it : nat) tr (c : Func * option Any) :
  c ∈ calls it tr → ∃ tr1 tr2, tr = tr1 ++ EvCall it c.1 c.2 :: tr2.
Proof.
  unfold calls. rewrite list_elem_of_omap. intros (e & Hin & Hc).
  destruct e as [| | |it' f v]; try done. cbn in Hc.
  case_bool_decide; simplify_eq/=. by apply list_elem_of_split.
Qed.

Lemma not_called (it : nat) tr :
  (∀ tr1 tr2 f v, tr ≠ tr1 ++ EvCall it f v :: tr2) → calls it tr = [].
Proof.
  intros Hno. apply elem_of_nil_inv. intros c Hc.
  apply called_split in Hc as (tr1 & tr2 & Heq). by eapply Hno.
Qed.

Lemma init_inv : pipe_inv init_state.
Proof.
  split; cbn.
  - intros it a rq Hin. by apply elem_of_nil in Hin.
  - intros it a rq a' rq' Hin. by apply elem_of_nil in Hin.
  - intros wt Hin. by apply elem_of_nil in Hin.
  - constructor.
  - intros [|? ?] ? ? ? ? ?; done.
  - intros it a rq Hin. by apply elem_of_nil in Hin.
Qed.

(** A step that adds neither a send nor a call, nor touches the waiting
    goroutines. *)
Lemma inv_quiet st st' e :
  pipe_inv st →
  trace st' = trace st ++ [e] →
  (∀ it a rq, e ≠ EvSend it a rq) →
  (∀ it f v, e ≠ EvCall it f v) →
  iter st' = iter st →
  waiters st' = waiters st →
  length (heap st') = length (heap st) →
  pipe_inv st'.
Proof.
  intros [I1 I2 I3 I4 I5 I6] Htr Hns Hnc Hit Hws Hlen.
  assert (Hsend : ∀ it a rq, EvSend it a rq ∈ trace st' →
                             EvSend it a rq ∈ trace st).
  { intros it a rq. rewrite Htr, elem_of_app, list_elem_of_singleton.
    intros [?| Heq]; [done|]. by destruct (Hns it a rq). }
  split.
  - intros it a rq Hin. rewrite Hit, Hlen. eauto.
  - intros it a rq a' rq' Hin Hin'. eauto.
  - intros wt. rewrite Hws. intros Hin. destruct (I3 wt Hin) as [Hs Hf].
    split; [|done]. rewrite Htr. apply elem_of_app. by left.
  - by rewrite Hws.
  - intros tr1 tr2 it f v. rewrite Htr. intros Heq.
    apply snoc_split in Heq as [(_ & _ & Heq)|(tr2' & _ & Heq)].
    + by destruct (Hnc it f v).
    + eauto.
  - intros it a rq Hin Hf. unfold parked. rewrite Hws, Htr, calls_snoc.
    assert (call_of it e = None) as ->.
    { destruct e as [| | |it' f v]; try done. by destruct (Hnc it' f v). }
    rewrite app_nil_r. eauto.
Qed.

Lemma inv_log st (lvl : Level) (m : string) (l : list Attr) :
  pipe_inv st → pipe_inv (LogAttrs lvl m l st).
Proof. intros Hinv. by eapply inv_quiet. Qed.

Lemma inv_continue st : pipe_inv st → pipe_inv (continue st).
Proof.
  intros [I1 I2 I3 I4 I5 I6]. split; cbn; try done.
  intros it a rq Hin. destruct (I1 it a rq Hin). split; lia.
Qed.

Lemma inv_engine_done st (a : nat) (v : option Any) :
  pipe_inv st → pipe_inv (engine_done a v st).
Proof.
  intros Hinv. unfold engine_done.
  destruct (heap st !! a) as [fc|]; [|done].
  destruct (done fc); [done|].
  eapply inv_quiet; [done|..]; try done. cbn. apply length_insert.
Qed.

(** No call of the iteration about to send has happened. *)
Lemma no_call_yet st :
  pipe_inv st → calls (iter st) (trace st) = [].
Proof.
  intros [I1 I2 I3 I4 I5 I6]. apply not_called. intros tr1 tr2 f v Heq.
  destruct (I5 _ _ _ _ _ Heq) as (a & rq & Hin & _).
  assert (Hin' : EvSend (iter st) a rq ∈ trace st).
  { rewrite Heq. apply elem_of_app. by left. }
  destruct (I1 _ _ _ Hin'). lia.
Qed.

Lemma inv_dispatch st (rq : WorkerRequest) (fc : frankenPHPContext) :
  pipe_inv st → pipe_inv (continue (dispatch rq fc st)).
Proof.
  intros Hinv. pose proof (no_call_yet st Hinv) as Hnone.
  destruct Hinv as [I1 I2 I3 I4 I5 I6].
  assert (Hold : ∀ wt, wt ∈ waiters st → wt_iter wt < iter st).
  { intros wt Hin. destruct (I3 wt Hin) as [Hs _]. by destruct (I1 _ _ _ Hs). }
  assert (Hnp : ¬ parked (iter st) st).
  { unfold parked. rewrite list_elem_of_fmap. intros (wt & Heq & Hin).
    specialize (Hold wt Hin). lia. }
  set (wt0 := mk_waiter (iter st) rq (length (heap st))).
  assert (Hws : waiters (continue (dispatch rq fc st)) =
                waiters st ++ match AfterFunc rq with
                              | Some _ => [wt0] | None => [] end).
  { cbn. destruct (AfterFunc rq); [done|by rewrite app_nil_r]. }
  split.
  - intros it a rq'. cbn. rewrite elem_of_app, list_elem_of_singleton.
    rewrite length_app. cbn. intros [Hin|Heq].
    + destruct (I1 _ _ _ Hin). lia.
    + simplify_eq. lia.
  - intros it a rq1 a' rq2. cbn.
    rewrite !elem_of_app, !list_elem_of_singleton.
    intros [Hin|Heq] [Hin'|Heq']; simplify_eq; eauto.
    + destruct (I1 _ _ _ Hin). lia.
    + destruct (I1 _ _ _ Hin'). lia.
  - intros wt. rewrite Hws, elem_of_app. cbn [trace continue dispatch].
    rewrite elem_of_app, list_elem_of_singleton. intros [Hin|Hin].
    + destruct (I3 wt Hin). eauto.
    + destruct (AfterFunc rq) as [f|] eqn:Hf; [|by apply elem_of_nil in Hin].
      apply list_elem_of_singleton in Hin as ->. cbn. rewrite Hf. eauto.
  - rewrite Hws, fmap_app. apply NoDup_app. split; [done|]. split.
    + intros it Hin Hin'. destruct (AfterFunc rq); [|by apply elem_of_nil in Hin'].
      apply list_elem_of_singleton in Hin'. cbn in Hin'. subst it. by apply Hnp.
    + destruct (AfterFunc rq); cbn; [apply NoDup_singleton|constructor].
  - intros tr1 tr2 it f v. cbn. intros Heq.
    apply snoc_split in Heq as [(_ & _ & Heq)|(tr2' & _ & Heq)]; [done|eauto].
  - intros it a rq'. unfold parked. rewrite Hws. cbn [trace continue dispatch].
    rewrite calls_snoc, app_nil_r, fmap_app, elem_of_app.
    rewrite elem_of_app, list_elem_of_singleton. intros [Hin|Heq] Hf.
    + destruct (I1 _ _ _ Hin) as [Hlt _].
      destruct (I6 _ _ _ Hin Hf) as [[Hp Hc]|[Hp Hc]]; [left; eauto|right].
      split; [|done]. intros [?|Hin']; [done|].
      destruct (AfterFunc rq); [|by apply elem_of_nil in Hin'].
      apply list_elem_of_singleton in Hin'. cbn in Hin'. lia.
    + simplify_eq. left. split; [|done]. right.
      destruct Hf as [f ->]. by apply list_elem_of_singleton.
Qed.

(** What [wake] does: nothing, or the goroutine ends with its call. *)
Lemma wake_cases (k : nat) st :
  (wake k st = st ∧ ∀ wt, waiters st !! k = Some wt → ¬ ready st wt) ∨
  ∃ wt fc l1 l2,
    waiters st = l1 ++ wt :: l2 ∧ length l1 = k ∧
    heap st !! wt_fc wt = Some fc ∧ done fc = true ∧
    wake k st =
      let st1 := mk_pipe_state (heap st) (iter st) (l1 ++ l2) (trace st) in
      match AfterFunc (wt_rq wt) with
      | Some f => emit (EvCall (wt_iter wt) f (handlerReturn fc)) st1
      | None => st1
      end.
Proof.
  unfold wake, ready. destruct (waiters st !! k) as [wt|] eqn:Hk; [|by left].
  destruct (heap st !! wt_fc wt) as [fc|] eqn:Hfc.
  2:{ left. split; [done|]. intros ? ? (? & ? & _). congruence. }
  destruct (done fc) eqn:Hd.
  2:{ left. split; [done|]. intros ? ? (? & ? & ?). congruence. }
  right.
  exists wt, fc, (take k (waiters st)), (drop (S k) (waiters st)).
  rewrite take_drop_middle by done. rewrite delete_take_drop.
  repeat split; try done.
  apply length_take_le. apply lookup_lt_Some in Hk. lia.
Qed.

Lemma inv_wake (k : nat) st : pipe_inv st → pipe_inv (wake k st).
Proof.
  intros Hinv.
  destruct (wake_cases k st)
    as [[-> _]|(wt & fc & l1 & l2 & Hws & _ & Hfc & Hd & ->)]; [done|].
  destruct Hinv as [I1 I2 I3 I4 I5 I6].
  assert (Hwt : wt ∈ waiters st).
  { rewrite Hws. apply elem_of_app. right. by left. }
  destruct (I3 wt Hwt) as [Hsend [f Hf]]. rewrite Hf. cbn zeta.
  rewrite Hws, fmap_app, fmap_cons in I4.
  apply NoDup_app in I4 as (N1 & N2 & N3).
  apply NoDup_cons in N3 as [N3 N4].
  assert (Hgone : wt_iter wt ∉ wt_iter <$> (l1 ++ l2)).
  { rewrite fmap_app, elem_of_app. intros [Hin|Hin]; [|done].
    apply (N2 _ Hin). by left. }
  assert (Hkeep : ∀ it, it ≠ wt_iter wt →
            (it ∈ wt_iter <$> (l1 ++ l2)) ↔ parked it st).
  { intros it Hne. unfold parked.
    rewrite Hws, !fmap_app, fmap_cons, !elem_of_app, elem_of_cons.
    intuition congruence. }
  assert (Htr : ∀ it a rq, EvSend it a rq ∈
                  trace st ++ [EvCall (wt_iter wt) f (handlerReturn fc)] ↔
                EvSend it a rq ∈ trace st).
  { intros it a rq. rewrite elem_of_app, list_elem_of_singleton.
    intuition discriminate. }
  split; cbn [trace waiters heap iter emit].
  - intros it a rq. rewrite Htr. eauto.
  - intros it a rq a' rq'. rewrite !Htr. eauto.
  - intros wt' Hin. rewrite Htr. apply I3. rewrite Hws.
    apply elem_of_app in Hin as [?|?]; apply elem_of_app; [by left|].
    right. by right.
  - rewrite fmap_app. apply NoDup_app. split; [done|]. split; [|done].
    intros it Hin Hin'. apply (N2 _ Hin). by right.
  - intros tr1 tr2 it f' v Heq.
    apply snoc_split in Heq as [(_ & -> & Heq)|(tr2' & _ & Heq)]; [|eauto].
    simplify_eq. eauto.
  - intros it a rq. rewrite Htr. intros Hin Hrq. unfold parked.
    cbn [trace waiters heap iter emit].
    rewrite calls_snoc. cbn [call_of]. case_bool_decide as Hit.
    + subst it. right. split; [done|].
      destruct (I6 _ _ _ Hin Hrq) as [[_ ->]|[Hp _]]; [done|].
      destruct Hp. unfold parked. rewrite Hws, fmap_app, fmap_cons.
      apply elem_of_app. right. by left.
    + rewrite app_nil_r. rewrite Hkeep by done.
      by apply (I6 _ _ _ Hin Hrq).
Qed.

Lemma init_done_inv : done_inv init_state.
Proof.
  split; cbn.
  - intros a fc Hin. done.
  - intros a v Hin. by apply elem_of_nil in Hin.
  - intros [|? ?] ? ? ? ? ?; done.
Qed.

Lemma done_inv_log st (lvl : Level) (m : string) (l : list Attr) :
  done_inv st → done_inv (LogAttrs lvl m l st).
Proof.
  intros [D1 D2 D3]. split; cbn.
  - intros a fc Hfc Hd. apply elem_of_app. left. eauto.
  - intros a v. rewrite elem_of_app, list_elem_of_singleton.
    intros [?|?]; [eauto|done].
  - intros tr1 tr2 it f v Heq.
    apply snoc_split in Heq as [(_ & _ & Heq)|(tr2' & _ & Heq)]; [done|eauto].
Qed.

Lemma done_inv_continue st : done_inv st → done_inv (continue st).
Proof. intros [D1 D2 D3]. by split. Qed.

Lemma done_inv_dispatch st (rq : WorkerRequest) (fc : frankenPHPContext) :
  done fc = false → done_inv st → done_inv (dispatch rq fc st).
Proof.
  intros Hopen [D1 D2 D3]. split; cbn.
  - intros a fc' Hfc Hd. apply elem_of_app. left.
    apply lookup_app_Some in Hfc as [Hfc|[_ Hfc]]; [eauto|].
    apply list_lookup_singleton_Some in Hfc as [_ <-]. congruence.
  - intros a v. rewrite elem_of_app, list_elem_of_singleton.
    intros [Hin|?]; [|done].
    destruct (D2 _ _ Hin) as (fc' & Hfc & Hd). exists fc'. split; [|done].
    rewrite lookup_app_l; [done|]. by eapply lookup_lt_Some.
  - intros tr1 tr2 it f v Heq.
    apply snoc_split in Heq as [(_ & _ & Heq)|(tr2' & _ & Heq)]; [done|eauto].
Qed.

Lemma done_inv_engine_done st (a : nat) (v : option Any) :
  done_inv st → done_inv (engine_done a v st).
Proof.
  intros Hinv. unfold engine_done.
  destruct (heap st !! a) as [fc|] eqn:Hfc; [|done].
  destruct (done fc) eqn:Hd; [done|].
  destruct Hinv as [D1 D2 D3]. pose proof (lookup_lt_Some _ _ _ Hfc) as Hlt.
  split; cbn.
  - intros a' fc' Hfc' Hd'. apply elem_of_app.
    destruct (decide (a = a')) as [<-|Hne].
    + rewrite list_lookup_insert_eq in Hfc' by done. simplify_eq/=.
      right. by left.
    + rewrite list_lookup_insert_ne in Hfc' by done. left. eauto.
  - intros a' v'. rewrite elem_of_app, list_elem_of_singleton.
    intros [Hin|Heq].
    + destruct (D2 _ _ Hin) as (fc' & Hfc' & Hd' & Hv).
      assert (a ≠ a') by (intros <-; congruence).
      exists fc'. by rewrite list_lookup_insert_ne.
    + simplify_eq. eexists. rewrite list_lookup_insert_eq by done. done.
  - intros tr1 tr2 it f v' Heq.
    apply snoc_split in Heq as [(_ & _ & Heq)|(tr2' & _ & Heq)]; [done|eauto].
Qed.

Lemma done_inv_wake (k : nat) st :
  pipe_inv st → done_inv st → done_inv (wake k st).
Proof.
  intros Hinv Hdone.
  destruct (wake_cases k st)
    as [[-> _]|(wt & fc & l1 & l2 & Hws & _ & Hfc & Hd & ->)]; [done|].
  assert (Hwt : wt ∈ waiters st).
  { rewrite Hws. apply elem_of_app. right. by left. }
  destruct (inv_waiter st Hinv wt Hwt) as [Hsend [f Hf]]. rewrite Hf. cbn zeta.
  destruct Hdone as [D1 D2 D3]. split; cbn.
  - intros a fc' Hfc' Hd'. apply elem_of_app. left. eauto.
  - intros a v. rewrite elem_of_app, list_elem_of_singleton.
    intros [?|?]; [eauto|done].
  - intros tr1 tr2 it f' v Heq.
    apply snoc_split in Heq as [(_ & -> & Heq)|(tr2' & _ & Heq)]; [|eauto].
    simplify_eq. exists (wt_fc wt), (wt_rq wt). split; [done|]. eauto.
Qed.

(** *** Every step keeps the invariants *)

Lemma pipe_iter_inv (p : pipe) (w : worker) (thread : phpThread)
    (rq : option WorkerRequest) st st' :
  pipe_iter p w thread rq st = Ok st' → pipe_inv st → pipe_inv st'.
Proof.
  destruct p; cbn; unfold startWorker_iter, startExternalWorkerPipe_iter;
    repeat case_match; intros; simplify_eq;
    eauto using inv_log, inv_continue, inv_dispatch.
Qed.

Lemma pipe_iter_done_inv (p : pipe) (w : worker) (thread : phpThread)
    (rq : option WorkerRequest) st st' :
  contexts_start_open →
  pipe_iter p w thread rq st = Ok st' → done_inv st → done_inv st'.
Proof.
  intros [Hnew Hfrom].
  destruct p; cbn; unfold startWorker_iter, startExternalWorkerPipe_iter;
    repeat case_match; intros; simplify_eq;
    repeat first [ apply done_inv_continue
                 | apply done_inv_dispatch; [cbn; eauto|]
                 | apply done_inv_log ]; done.
Qed.

Lemma step_inv (p : pipe) (w : worker) (thread : phpThread) (act : action)
    st st' :
  step p w thread act st = Ok st' → pipe_inv st → pipe_inv st'.
Proof.
  destruct act as [rq|a v|k]; cbn; intros; simplify_eq;
    eauto using pipe_iter_inv, inv_engine_done, inv_wake.
Qed.

Lemma step_done_inv (p : pipe) (w : worker) (thread : phpThread)
    (act : action) st st' :
  contexts_start_open →
  step p w thread act st = Ok st' →
  pipe_inv st → done_inv st → done_inv st'.
Proof.
  destruct act as [rq|a v|k]; cbn; intros; simplify_eq;
    eauto using pipe_iter_done_inv, done_inv_engine_done, done_inv_wake.
Qed.

Lemma run_inv (p : pipe) (w : worker) (thread : phpThread)
    (acts : list action) st st' :
  run p w thread acts st = Ok st' → pipe_inv st → pipe_inv st'.
Proof.
  revert st. induction acts as [|act acts IH]; cbn; intros st Hrun Hinv.
  - by simplify_eq.
  - destruct (step p w thread act st) as [st1|] eqn:Hstep; [|done].
    eauto using step_inv.
Qed.

Lemma run_done_inv (p : pipe) (w : worker) (thread : phpThread)
    (acts : list action) st st' :
  contexts_start_open →
  run p w thread acts st = Ok st' →
  pipe_inv st → done_inv st → done_inv st'.
Proof.
  intros Hopen. revert st.
  induction acts as [|act acts IH]; cbn; intros st Hrun Hinv Hdone.
  - by simplify_eq.
  - destruct (step p w thread act st) as [st1|] eqn:Hstep; [|done].
    eauto using step_inv, step_done_inv.
Qed.

(** *** Steps only add to the trace *)

Lemma extends_refl st : extends st st.
Proof.
  split; [done|]. exists []. split; [by rewrite app_nil_r|].
  intros it a rq Hin. by apply elem_of_nil in Hin.
Qed.

Lemma extends_trans st1 st2 st3 :
  extends st1 st2 → extends st2 st3 → extends st1 st3.
Proof.
  intros [Hi (es & Ht & Hs)] [Hi' (es' & Ht' & Hs')]. split; [lia|].
  exists (es ++ es'). split; [by rewrite Ht', Ht, app_assoc|].
  intros it a rq [Hin|Hin]%elem_of_app; [eauto|].
  specialize (Hs' _ _ _ Hin). lia.
Qed.

Lemma extends_emit st e :
  (∀ it a rq, e = EvSend it a rq → iter st ≤ it) → extends st (emit e st).
Proof.
  intros He. split; [done|]. exists [e]. split; [done|].
  intros it a rq Hin%list_elem_of_singleton. eauto.
Qed.

Lemma extends_continue st : extends st (continue st).
Proof.
  split; [cbn; lia|]. exists []. split; [by rewrite app_nil_r|].
  intros it a rq Hin. by apply elem_of_nil in Hin.
Qed.

Lemma extends_dispatch st (rq : WorkerRequest) (fc : frankenPHPContext) :
  extends st (dispatch rq fc st).
Proof.
  split; [done|]. eexists. split; [done|].
  intros it a rq' Hin%list_elem_of_singleton. by simplify_eq.
Qed.

Lemma extends_engine_done st (a : nat) (v : option Any) :
  extends st (engine_done a v st).
Proof.
  unfold engine_done. repeat case_match; try apply extends_refl.
  split; [done|]. eexists. split; [done|].
  intros it a' rq' Hin%list_elem_of_singleton. done.
Qed.

Lemma extends_wake (k : nat) st : extends st (wake k st).
Proof.
  unfold wake. repeat case_match; try apply extends_refl.
  - split; [done|]. eexists. split; [done|].
    intros it a' rq' Hin%list_elem_of_singleton. done.
  - split; [done|]. exists []. split; [by rewrite app_nil_r|].
    intros it a rq Hin. by apply elem_of_nil in Hin.
Qed.

Lemma extends_pipe_iter (p : pipe) (w : worker) (thread : phpThread)
    (rq : option WorkerRequest) st st' :
  pipe_iter p w thread rq st = Ok st' → extends st st'.
Proof.
  assert (Hlog : ∀ lvl m l st0, extends st0 (LogAttrs lvl m l st0)).
  { intros. by apply extends_emit. }
  destruct p; cbn; unfold startWorker_iter, startExternalWorkerPipe_iter;
    repeat case_match; intros; simplify_eq;
    repeat first [ done
                 | apply extends_refl
                 | eapply extends_trans; [|apply extends_continue]
                 | eapply extends_trans; [|apply extends_dispatch]
                 | apply Hlog ].
Qed.

Lemma run_extends (p : pipe) (w : worker) (thread : phpThread)
    (acts : list action) st st' :
  run p w thread acts st = Ok st' → extends st st'.
Proof.
  revert st. induction acts as [|act acts IH]; cbn; intros st Hrun.
  - simplify_eq. apply extends_refl.
  - destruct (step p w thread act st) as [st1|] eqn:Hstep; [|done].
    eapply extends_trans; [|by apply IH].
    destruct act as [rq|a v|k]; cbn in Hstep; simplify_eq;
      eauto using extends_pipe_iter, extends_engine_done, extends_wake.
Qed.

(** An iteration that ended without sending never has its callback
    called. *)
Lemma dropped_never_called (it : nat) st st' :
  it < iter st → (∀ a rq, EvSend it a rq ∉ trace st) →
  extends st st' → pipe_inv st' →
  calls it (trace st') = [].
Proof.
  intros Hlt Hno [_ (es & Htr & Hes)] Hinv. apply not_called.
  intros tr1 tr2 f v Heq.
  destruct (inv_call_sent st' Hinv _ _ _ _ _ Heq) as (a & rq & Hin & _).
  assert (Hin' : EvSend it a rq ∈ trace st').
  { rewrite Heq. apply elem_of_app. by left. }
  rewrite Htr in Hin'. apply elem_of_app in Hin' as [Hin'|Hin'].
  - by apply (Hno a rq).
  - specialize (Hes _ _ _ Hin'). lia.
Qed.

(** *** Scheduling the waiting goroutines *)

Lemma wake_heap (k : nat) st : heap (wake k st) = heap st.
Proof. unfold wake. by repeat case_match. Qed.

Lemma wake_all_heap (n : nat) st : heap (wake_all n st) = heap st.
Proof.
  revert st. induction n as [|n IH]; intros st; cbn; [done|].
  by rewrite IH, wake_heap.
Qed.

Lemma wake_all_inv (n : nat) st : pipe_inv st → pipe_inv (wake_all n st).
Proof.
  revert st. induction n as [|n IH]; intros st Hinv; cbn; [done|].
  by apply IH, inv_wake.
Qed.

Lemma wake_all_done_inv (n : nat) st :
  pipe_inv st → done_inv st → done_inv (wake_all n st).
Proof.
  revert st. induction n as [|n IH]; intros st Hinv Hdone; cbn; [done|].
  apply IH; [by apply inv_wake|by apply done_inv_wake].
Qed.

Lemma wake_all_extends (n : nat) st : extends st (wake_all n st).
Proof.
  revert st. induction n as [|n IH]; intros st; cbn; [apply extends_refl|].
  eapply extends_trans; [apply extends_wake|apply IH].
Qed.

Lemma wake_all_no_ready (n : nat) st :
  (∀ j wt, n ≤ j → waiters st !! j = Some wt → ¬ ready st wt) →
  ∀ wt, wt ∈ waiters (wake_all n st) → ¬ ready (wake_all n st) wt.
Proof.
  revert st. induction n as [|n IH]; intros st Hhigh; cbn.
  - intros wt [j Hj]%list_elem_of_lookup_1. apply (Hhigh j); [lia|done].
  - apply IH. intros j wt Hle Hj.
    assert (Hready : ready (wake n st) wt ↔ ready st wt).
    { unfold ready. by rewrite wake_heap. }
    rewrite Hready.
    destruct (wake_cases n st)
      as [[Heq Hn]|(wt0 & fc & l1 & l2 & Hws & Hlen & _ & _ & Heq)].
    + rewrite Heq in Hj. destruct (decide (j = n)) as [->|Hne]; [eauto|].
      apply (Hhigh j); [lia|done].
    + assert (Hws' : waiters (wake n st) = l1 ++ l2).
      { rewrite Heq. cbn zeta. by destruct (AfterFunc (wt_rq wt0)). }
      rewrite Hws' in Hj. apply (Hhigh (S j)); [lia|].
      rewrite Hws. rewrite lookup_app_r in Hj |- * by lia.
      rewrite Hlen in *. by replace (S j - n) with (S (j - n)) by lia.
Qed.

Lemma settle_no_ready st :
  ∀ wt, wt ∈ waiters (settle st) → ¬ ready (settle st) wt.
Proof.
  apply wake_all_no_ready. intros j wt Hle Hj.
  apply lookup_lt_Some in Hj. lia.
Qed.

End PipeInvariant.

Section PipeClaims.
Context `{GoTypes} `{!Collaborators}.
Implicit Types (st : pipe_state) (rq : WorkerRequest).

(** C1, amended to what the two loops do.  In [startWorker], a request
    that is not nil and whose [Request] is nil gets the context of
    [newFrankenPHPContext] with the logger, the worker, the response writer
    and the callback parameters set; the loop logs at level info and sends
    that context on the worker's request channel.  In
    [startExternalWorkerPipe], a nil request and a request whose [Request]
    is nil are logged as a warning, with the worker and the thread, and
    nothing is sent.  In both cases the loop goes on, and a request that
    adapts, coming next, is sent on the same channel with its response
    writer and parameters. *)
Theorem absent_payload_handling (w : worker) (thread : phpThread) st
    (rq : WorkerRequest) (rq0 : option WorkerRequest) (p : pipe)
    (rq1 : WorkerRequest) (fc1 : frankenPHPContext) :
  Request rq = None →
  absent rq0 →
  adapts_to p w rq1 fc1 →
  (let empty :=
     mk_fc (Some logger) (Some w) (Response rq) (CallbackParameters rq)
       (handlerReturn newFrankenPHPContext) (done newFrankenPHPContext)
       (fc_other newFrankenPHPContext) in
   ∃ st1, startWorker_iter w thread (Some rq) st = Ok st1 ∧
     heap st1 = heap st ++ [empty] ∧
     requestChan st1 = requestChan st ++ [length (heap st)] ∧
     logged st1 = logged st ++
       [mk_LogRecord LevelInfo "queue the external worker request"
          [slog_String "worker" (name w);
           slog_Int "thread" (threadIndex thread)]] ∧
     iter st1 = S (iter st)) ∧
  (∃ st1, startExternalWorkerPipe_iter w thread rq0 st = Ok st1 ∧
     heap st1 = heap st ∧
     requestChan st1 = requestChan st ∧
     waiters st1 = waiters st ∧
     logged st1 = logged st ++
       [mk_LogRecord LevelWarn "external worker provided nil request"
          [slog_String "worker" (name w);
           slog_Int "thread" (threadIndex thread)]] ∧
     iter st1 = S (iter st)) ∧
  (∃ st2 a fc,
     pipe_loop p w thread
       [match p with StartWorker => Some rq | StartExternalWorkerPipe => rq0 end;
        Some rq1] st = Ok st2 ∧
     last (requestChan st2) = Some a ∧
     EvSend (S (iter st)) a rq1 ∈ trace st2 ∧
     heap st2 !! a = Some fc ∧
     responseWriter fc = Response rq1 ∧
     handlerParameters fc = CallbackParameters rq1 ∧
     fc_other fc = fc_other fc1).
Proof.
  intros Hnil Habs (r & fr & Hr & Hnew & Hctx). split; [|split].
  - eexists. unfold startWorker_iter. rewrite Hnil. split; [done|].
    unfold requestChan, logged. cbn. rewrite !omap_app. cbn.
    by rewrite !app_nil_r.
  - eexists. unfold startExternalWorkerPipe_iter.
    assert (Hshape : match rq0 with
                     | None => True | Some rq' => Request rq' = None end)
      by exact Habs.
    destruct rq0 as [rq'|]; [rewrite Hshape|]; (split; [done|]);
      unfold requestChan, logged; cbn; rewrite !omap_app; cbn;
      by rewrite !app_nil_r.
  - unfold pipe_loop. destruct p; cbn [fmap list_fmap run step pipe_iter].
    + unfold startWorker_iter at 1. rewrite Hnil. cbn zeta.
      unfold startWorker_iter. rewrite Hr. cbn in Hnew. rewrite Hnew, Hctx.
      do 3 eexists. split; [done|]. unfold requestChan. cbn.
      rewrite !omap_app. cbn. rewrite !app_nil_r.
      split; [by rewrite last_snoc|].
      split; [apply elem_of_app; right; by apply list_elem_of_singleton|].
      rewrite lookup_app_r by lia. rewrite Nat.sub_diag. done.
    + assert (Hfirst : ∃ st1,
                startExternalWorkerPipe_iter w thread rq0 st = Ok st1 ∧
                heap st1 = heap st ∧ iter st1 = S (iter st) ∧
                omap sent_of (trace st1) = omap sent_of (trace st)).
      { unfold startExternalWorkerPipe_iter.
        assert (Hshape : match rq0 with
                         | None => True | Some rq' => Request rq' = None end)
          by exact Habs.
        destruct rq0 as [rq'|]; [rewrite Hshape|]; eexists;
          (split; [done|]); cbn; rewrite omap_app; cbn;
          by rewrite app_nil_r. }
      destruct Hfirst as (st1 & -> & Hheap & Hiter & Hsent).
      unfold startExternalWorkerPipe_iter. rewrite Hr. cbn in Hnew.
      rewrite Hnew, Hctx.
      do 3 eexists. split; [done|]. unfold requestChan. cbn.
      rewrite !omap_app. cbn. rewrite !app_nil_r.
      split; [by rewrite last_snoc|]. rewrite Hiter.
      split; [rewrite !elem_of_app; right; by apply list_elem_of_singleton|].
      rewrite lookup_app_r by lia. rewrite Nat.sub_diag. done.
Qed.

(** C4: when the payload of a request does not adapt, that is when
    [NewRequestWithContext] returns an error, either loop logs it at level
    error with the worker's name, the thread's index and the error, and
    goes to its next iteration: the process goes on, nothing is sent on the
    request channel, no goroutine is spawned, and whatever happens
    afterwards the callback of that request is never called. *)
Theorem malformed_payload_logged_and_dropped (p : pipe) (w : worker)
    (thread : phpThread) (acts : list action) st (rq : WorkerRequest)
    (r : HttpRequest) (err : GoError) :
  run p w thread acts init_state = Ok st →
  Request rq = Some r →
  NewRequestWithContext r (request_options p w r) = inl err →
  ∃ st1,
    pipe_iter p w thread (Some rq) st = Ok st1 ∧
    trace st1 = trace st ++
      [EvLog (mk_LogRecord LevelError
                "error creating request for external worker"
                [slog_String "worker" (name w);
                 slog_Int "thread" (threadIndex thread);
                 slog_Any "error" err])] ∧
    requestChan st1 = requestChan st ∧
    heap st1 = heap st ∧
    waiters st1 = waiters st ∧
    iter st1 = S (iter st) ∧
    ∀ acts' st2,
      run p w thread acts' st1 = Ok st2 → calls (iter st) (trace st2) = [].
Proof.
  intros Hrun Hr Hnew.
  pose proof (run_inv _ _ _ _ _ _ Hrun init_inv) as Hinv.
  eexists. split.
  { destruct p; cbn in *; unfold startWorker_iter, startExternalWorkerPipe_iter;
      rewrite Hr, Hnew; done. }
  cbn. split; [done|]. split.
  { unfold requestChan. cbn. rewrite omap_app. cbn. by rewrite app_nil_r. }
  do 3 (split; [done|]).
  intros acts' st2 Hrun2.
  match type of Hrun2 with run _ _ _ _ ?s = _ => set (st1 := s) in * end.
  apply (dropped_never_called _ st1).
  - cbn. lia.
  - intros a rq' Hin. cbn in Hin.
    apply elem_of_app in Hin as [Hin|Hin%list_elem_of_singleton]; [|done].
    destruct (inv_sent_lt st Hinv _ _ _ Hin). lia.
  - by eapply run_extends.
  - eapply run_inv; [done|]. by apply inv_continue, inv_log.
Qed.

(** C9: when the payload adapts and [fromContext] finds no context in the
    adapted request, either loop goes to its next iteration and does
    nothing else: no record is logged and nothing is sent (the trace is
    unchanged), no goroutine is spawned, and whatever happens afterwards the
    callback of that request is never called. *)
Theorem no_context_dropped_silently (p : pipe) (w : worker)
    (thread : phpThread) (acts : list action) st (rq : WorkerRequest)
    (r fr : HttpRequest) :
  run p w thread acts init_state = Ok st →
  Request rq = Some r →
  NewRequestWithContext r (request_options p w r) = inr fr →
  fromContext (Context fr) = None →
  ∃ st1,
    pipe_iter p w thread (Some rq) st = Ok st1 ∧
    trace st1 = trace st ∧
    logged st1 = logged st ∧
    requestChan st1 = requestChan st ∧
    heap st1 = heap st ∧
    waiters st1 = waiters st ∧
    iter st1 = S (iter st) ∧
    ∀ acts' st2,
      run p w thread acts' st1 = Ok st2 → calls (iter st) (trace st2) = [].
Proof.
  intros Hrun Hr Hnew Hctx.
  pose proof (run_inv _ _ _ _ _ _ Hrun init_inv) as Hinv.
  exists (continue st). split.
  { destruct p; cbn in *; unfold startWorker_iter, startExternalWorkerPipe_iter;
      rewrite Hr, Hnew, Hctx; done. }
  do 6 (split; [done|]).
  intros acts' st2 Hrun2. apply (dropped_never_called _ (continue st)).
  - cbn. lia.
  - intros a rq' Hin. cbn in Hin.
    destruct (inv_sent_lt st Hinv _ _ _ Hin). lia.
  - by eapply run_extends.
  - eapply run_inv; [done|]. by apply inv_continue.
Qed.

(** C2: take any run of a pipe with the engine and the waiting goroutines,
    and any iteration [it] of the loop.  The callback of the request of [it]
    is called at most once.  A call comes after the send of the request's
    context and after the engine has finished that context, the function
    called is the request's [AfterFunc] and the argument is the one value
    the engine stored as the handler's return.  If the context was sent, the
    request has a callback and the engine has finished the context, then
    once the waiting goroutines have run there is exactly one call; while
    the engine has not finished the context there is none.  If the iteration
    ended without sending, there is no call, now or ever after. *)
Theorem callback_exactly_once_after_done (p : pipe) (w : worker)
    (thread : phpThread) (acts : list action) st (it : nat) :
  contexts_start_open →
  run p w thread acts init_state = Ok st →
  length (calls it (trace st)) ≤ 1 ∧
  (∀ tr1 tr2 f v,
     trace st = tr1 ++ EvCall it f v :: tr2 →
     ∃ a rq, EvSend it a rq ∈ tr1 ∧ AfterFunc rq = Some f ∧
             EvDone a v ∈ tr1 ∧
             ∀ v', EvDone a v' ∈ trace st → v' = v) ∧
  (∀ a rq f v,
     EvSend it a rq ∈ trace st → AfterFunc rq = Some f →
     EvDone a v ∈ trace st →
     calls it (trace (settle st)) = [(f, v)]) ∧
  (∀ a rq,
     EvSend it a rq ∈ trace st → (∀ v, EvDone a v ∉ trace st) →
     calls it (trace st) = []) ∧
  (it < iter st → (∀ a rq, EvSend it a rq ∉ trace st) →
   ∀ acts' st', run p w thread acts' st = Ok st' →
                calls it (trace st') = []).
Proof.
  intros Hopen Hrun.
  pose proof (run_inv _ _ _ _ _ _ Hrun init_inv) as Hinv.
  pose proof (run_done_inv _ _ _ _ _ _ Hopen Hrun init_inv init_done_inv)
    as Hdone.
  assert (Hcall : ∀ s tr1 tr2 f v,
            pipe_inv s → done_inv s →
            trace s = tr1 ++ EvCall it f v :: tr2 →
            ∃ a rq, EvSend it a rq ∈ tr1 ∧ AfterFunc rq = Some f ∧
                    EvDone a v ∈ tr1 ∧
                    ∀ v', EvDone a v' ∈ trace s → v' = v).
  { intros s tr1 tr2 f v Hi Hd Heq.
    destruct (inv_call_sent s Hi _ _ _ _ _ Heq) as (a & rq & Hs & Hf).
    destruct (inv_call_done s Hd _ _ _ _ _ Heq) as (a' & rq' & Hs' & Hdn).
    assert (Hpre : ∀ e, e ∈ tr1 → e ∈ trace s).
    { intros e He. rewrite Heq. apply elem_of_app. by left. }
    destruct (inv_sent_uniq s Hi _ _ _ _ _ (Hpre _ Hs) (Hpre _ Hs'))
      as [<- <-].
    exists a, rq. do 3 (split; [done|]). intros v' Hv'.
    destruct (inv_ev_done s Hd _ _ (Hpre _ Hdn)) as (fc & Hfc & _ & <-).
    destruct (inv_ev_done s Hd _ _ Hv') as (fc' & Hfc' & _ & <-).
    congruence. }
  split; [|split; [|split; [|split]]].
  - destruct (calls it (trace st)) as [|c cs] eqn:Hc; [cbn; lia|].
    assert (Hin : c ∈ calls it (trace st)) by (rewrite Hc; by left).
    apply called_split in Hin as (tr1 & tr2 & Heq).
    destruct (inv_call_sent st Hinv _ _ _ _ _ Heq) as (a & rq & Hs & Hf).
    assert (Hs' : EvSend it a rq ∈ trace st).
    { rewrite Heq. apply elem_of_app. by left. }
    destruct (inv_count st Hinv _ _ _ Hs' ltac:(eauto)) as [[_ Hn]|[_ Hn]];
      rewrite Hc in Hn; [done|]. lia.
  - intros tr1 tr2 f v Heq. by eapply Hcall.
  - intros a rq f v Hs Hf Hdn.
    pose proof (wake_all_inv (length (waiters st)) st Hinv) as Hinv'.
    pose proof (wake_all_done_inv (length (waiters st)) st Hinv Hdone)
      as Hdone'.
    destruct (wake_all_extends (length (waiters st)) st)
      as [_ (es & Htr & _)].
    fold (settle st) in Hinv', Hdone', Htr.
    assert (Hs' : EvSend it a rq ∈ trace (settle st)).
    { rewrite Htr. apply elem_of_app. by left. }
    assert (Hdn' : EvDone a v ∈ trace (settle st)).
    { rewrite Htr. apply elem_of_app. by left. }
    destruct (inv_count _ Hinv' _ _ _ Hs' ltac:(eauto)) as [[Hp _]|[_ Hn]].
    + exfalso. unfold parked in Hp.
      apply list_elem_of_fmap in Hp as (wt & Hit & Hwt).
      destruct (inv_waiter _ Hinv' wt Hwt) as [Hws _]. rewrite <- Hit in Hws.
      destruct (inv_sent_uniq _ Hinv' _ _ _ _ _ Hs' Hws) as [Ha _].
      apply (settle_no_ready st wt Hwt).
      destruct (inv_ev_done _ Hdone' _ _ Hdn') as (fc & Hfc & Hd & _).
      exists fc. by rewrite <- Ha.
    + destruct (calls it (trace (settle st))) as [|[f' v'] [|? ?]] eqn:Hc;
        try done.
      assert (Hin : (f', v') ∈ calls it (trace (settle st)))
        by (rewrite Hc; by left).
      apply called_split in Hin as (tr1 & tr2 & Heq). cbn in Heq.
      destruct (Hcall _ _ _ _ _ Hinv' Hdone' Heq)
        as (a' & rq' & Hs2 & Hf' & Hdn2 & Huniq).
      assert (Hs2' : EvSend it a' rq' ∈ trace (settle st)).
      { rewrite Heq. apply elem_of_app. by left. }
      destruct (inv_sent_uniq _ Hinv' _ _ _ _ _ Hs' Hs2') as [<- <-].
      rewrite (Huniq v Hdn'). congruence.
  - intros a rq Hs Hnd. apply not_called. intros tr1 tr2 f v Heq.
    destruct (Hcall _ _ _ _ _ Hinv Hdone Heq)
      as (a' & rq' & Hs2 & _ & Hdn2 & _).
    assert (Hpre : ∀ e, e ∈ tr1 → e ∈ trace st).
    { intros e He. rewrite Heq. apply elem_of_app. by left. }
    destruct (inv_sent_uniq _ Hinv _ _ _ _ _ Hs (Hpre _ Hs2)) as [<- _].
    apply (Hnd v). by apply Hpre.
  - intros Hlt Hno acts' st' Hrun'.
    apply (dropped_never_called _ st); try done.
    + by eapply run_extends.
    + by eapply run_inv.
Qed.

End PipeClaims.

(** ** The properties on the fixtures *)

Lemma fixtures_start_open : contexts_start_open.
Proof.
  split; [reflexivity|]. intros c fc. cbn.
  case_bool_decide; intros Heq; [discriminate|].
  injection Heq as <-. reflexivity.
Defined.

Lemma absent_payload_handling_witness :
  Request admin_call = None ∧
  absent (Some admin_call) ∧
  adapts_to StartExternalWorkerPipe engine_worker get_test get_test_context ∧
  ∃ st2,
    pipe_loop StartExternalWorkerPipe engine_worker thread3
      [Some admin_call; Some get_test] init_state = Ok st2 ∧
    last (requestChan st2) = Some 0.
Proof.
  assert (Ha : adapts_to StartExternalWorkerPipe engine_worker get_test
                 get_test_context).
  { exists "https://example.com/test/?foo=bar",
           "https://example.com/test/?foo=bar".
    repeat split; reflexivity. }
  split; [reflexivity|]. split; [reflexivity|]. split; [exact Ha|].
  destruct (absent_payload_handling engine_worker thread3 init_state
              admin_call (Some admin_call) StartExternalWorkerPipe get_test
              get_test_context eq_refl eq_refl Ha)
    as (_ & _ & st2 & a & fc & Hloop & Hlast & _).
  exists st2. split; [exact Hloop|].
  cbv in Hloop. injection Hloop as <-. reflexivity.
Defined.

(** C1 as stated fails: [startExternalWorkerPipe] sends nothing for a
    request without payload, and [startWorker] panics on a nil request. *)
Lemma absent_payload_not_always_dispatched :
  (∃ st,
     startExternalWorkerPipe_iter engine_worker thread3 (Some admin_call)
       init_state = Ok st ∧
     requestChan st = [] ∧ heap st = []) ∧
  startWorker_iter engine_worker thread3 None init_state =
    Panic nil_dereference.
Proof. split; [eexists; repeat split|]; reflexivity. Qed.

Lemma callback_exactly_once_after_done_witness :
  contexts_start_open ∧
  run StartWorker engine_worker thread3 get_test_run init_state =
    Ok get_test_served ∧
  calls 0 (trace get_test_served) = [("close(done)", Some 200%Z)] ∧
  calls 0 (trace (settle get_test_served)) = [("close(done)", Some 200%Z)] ∧
  length (calls 0 (trace get_test_served)) ≤ 1.
Proof.
  assert (Hrun : run StartWorker engine_worker thread3 get_test_run
                   init_state = Ok get_test_served) by reflexivity.
  split; [exact fixtures_start_open|]. split; [exact Hrun|].
  split; [reflexivity|].
  destruct (callback_exactly_once_after_done StartWorker engine_worker thread3
              get_test_run get_test_served 0 fixtures_start_open Hrun)
    as (Hmost & _ & Hone & _).
  split; [|exact Hmost].
  apply (Hone 0 get_test "close(done)" (Some 200%Z)).
  - apply (list_elem_of_lookup_2 _ 1). reflexivity.
  - reflexivity.
  - apply (list_elem_of_lookup_2 _ 2). reflexivity.
Defined.

Lemma NewWorker_queue_unbuffered_witness :
  dataqsiz (dw_requestChan mockWorker) = 0 ∧
  ProvideRequest 1 (InjectRequest (Some get_test) mockWorker) =
    (set_requestChan (mk_hchan 0 [] [] [] [(1, Some get_test)]) mockWorker,
     Some (Some get_test)).
Proof.
  destruct (NewWorker_queue_unbuffered "mockWorker" "testdata/worker.php" 1 ∅
              (Some get_test) 1)
    as (_ & Hcap & _ & _ & Hgo & _).
  split; [exact Hcap|exact Hgo].
Defined.

(** C3 as stated fails: the worker of the test reserves one thread and its
    queue has capacity zero. *)
Lemma NewWorker_queue_capacity_is_not_minThreads :
  GetMinThreads mockWorker = 1%Z ∧
  Z.of_nat (dataqsiz (dw_requestChan mockWorker)) ≠ GetMinThreads mockWorker.
Proof. split; [reflexivity|]. cbn. discriminate. Qed.

Lemma malformed_payload_logged_and_dropped_witness :
  run StartWorker engine_worker thread3 get_test_run init_state =
    Ok get_test_served ∧
  Request malformed = Some "" ∧
  NewRequestWithContext "" (request_options StartWorker engine_worker "") =
    inl "empty url" ∧
  ∃ st1,
    pipe_iter StartWorker engine_worker thread3 (Some malformed)
      get_test_served = Ok st1 ∧
    requestChan st1 = [0] ∧ waiters st1 = [] ∧
    logged st1 =
      logged get_test_served ++
      [mk_LogRecord LevelError "error creating request for external worker"
         [slog_String "worker" "mockWorker"; slog_Int "thread" 3;
          slog_Any "error" "empty url"]].
Proof.
  assert (Hrun : run StartWorker engine_worker thread3 get_test_run
                   init_state = Ok get_test_served) by reflexivity.
  split; [exact Hrun|]. split; [reflexivity|]. split; [reflexivity|].
  destruct (malformed_payload_logged_and_dropped StartWorker engine_worker
              thread3 get_test_run get_test_served malformed "" "empty url"
              Hrun eq_refl eq_refl)
    as (st1 & Hiter & Htr & Hchan & _ & Hws & _).
  exists st1. split; [exact Hiter|]. split; [exact Hchan|].
  split; [exact Hws|]. unfold logged. rewrite Htr. reflexivity.
Defined.

Lemma no_context_dropped_silently_witness :
  run StartExternalWorkerPipe engine_worker thread3 [] init_state =
    Ok init_state ∧
  Request no_context = Some "no-context" ∧
  NewRequestWithContext "no-context"
    (request_options StartExternalWorkerPipe engine_worker "no-context") =
    inr "no-context" ∧
  fromContext (Context "no-context") = None ∧
  ∃ st1,
    pipe_iter StartExternalWorkerPipe engine_worker thread3 (Some no_context)
      init_state = Ok st1 ∧
    trace st1 = [] ∧ waiters st1 = [] ∧ iter st1 = 1.
Proof.
  assert (Hnew : NewRequestWithContext "no-context"
                   (request_options StartExternalWorkerPipe engine_worker
                      "no-context") = inr "no-context") by reflexivity.
  assert (Hctx : fromContext (Context "no-context") = None) by reflexivity.
  do 2 (split; [reflexivity|]). split; [exact Hnew|]. split; [exact Hctx|].
  destruct (no_context_dropped_silently StartExternalWorkerPipe engine_worker
              thread3 [] init_state no_context "no-context" "no-context"
              eq_refl eq_refl Hnew Hctx)
    as (st1 & Hiter & Htr & _ & _ & _ & Hws & Hit & _).
  exists st1. split; [exact Hiter|]. split; [exact Htr|].
  split; [exact Hws|exact Hit].
Defined.

Lemma mockWorker_counters_wf : counters_wf mockWorker.
Proof. split; split; discriminate. Defined.

Lemma activate_drain_deactivate_net_zero_witness :
  counters_wf mockWorker ∧
  ThreadDeactivatedNotification 7
    (ThreadDrainNotification 7 (ThreadActivatedNotification 7 mockWorker)) =
  mockWorker.
Proof.
  split; [exact mockWorker_counters_wf|].
  exact (proj2 (proj2 (activate_drain_deactivate_net_zero 7 mockWorker
                         mockWorker_counters_wf))).
Defined.

Lemma deactivated_decrements_both_witness :
  counters_wf (ThreadActivatedNotification 5 mockWorker) ∧
  (int32_min < activatedCount (ThreadActivatedNotification 5 mockWorker))%Z ∧
  (int32_min < drainCount (ThreadActivatedNotification 5 mockWorker))%Z ∧
  activatedCount
    (ThreadDeactivatedNotification 5 (ThreadActivatedNotification 5 mockWorker))
    = 0%Z ∧
  drainCount
    (ThreadDeactivatedNotification 5 (ThreadActivatedNotification 5 mockWorker))
    = (-1)%Z.
Proof.
  assert (Hwf : counters_wf (ThreadActivatedNotification 5 mockWorker))
    by (split; split; discriminate).
  assert (Ha : (int32_min <
                activatedCount (ThreadActivatedNotification 5 mockWorker))%Z)
    by reflexivity.
  assert (Hd : (int32_min <
                drainCount (ThreadActivatedNotification 5 mockWorker))%Z)
    by reflexivity.
  do 3 (split; [assumption|]).
  destruct (deactivated_decrements_both 5 9
              (ThreadActivatedNotification 5 mockWorker) Hwf)
    as (_ & _ & Hact & Hdr & _).
  split; [exact (proj1 (Hact Ha))|exact (Hdr Hd)].
Defined.

Lemma default_queue_fifo_witness :
  pending (dw_requestChan mockWorker) = [] ∧
  recvq (dw_requestChan mockWorker) = [] ∧
  (let w2 := InjectRequest (Some admin_call)
               (InjectRequest (Some get_test) mockWorker) in
   (ProvideRequest 1 w2).2 = Some (Some get_test) ∧
   (ProvideRequest 2 (ProvideRequest 1 w2).1).2 = Some (Some admin_call)).
Proof.
  do 2 (split; [reflexivity|]).
  exact (proj2 (default_queue_fifo "mockWorker" "testdata/worker.php" 1 ∅ []
                  (Some get_test) (Some admin_call) [] 1 2) eq_refl eq_refl).
Defined.

Lemma register_last_writer_wins_witness :
  Name mockWorker_a = Name mockWorker_b ∧
  ThreadFramework.Name mockWorker_a = ThreadFramework.Name mockWorker_b ∧
  RegisterWorker mockWorker_b (RegisterWorker mockWorker_a ∅) !! "mockWorker"
    = Some mockWorker_b ∧
  ThreadFramework.RegisterExternalWorker mockWorker_b
    (ThreadFramework.RegisterExternalWorker mockWorker_a ∅) !! "mockWorker"
    = Some mockWorker_b.
Proof.
  assert (Hn : Name mockWorker_a = Name mockWorker_b) by reflexivity.
  assert (Hx : ThreadFramework.Name mockWorker_a =
               ThreadFramework.Name mockWorker_b) by reflexivity.
  split; [exact Hn|]. split; [exact Hx|].
  destruct (register_last_writer_wins mockWorker_a mockWorker_b ∅
              mockWorker_a mockWorker_b ∅ Hn Hx)
    as [(Hr & _) (Hw & _)].
  split; [exact Hr|exact Hw].
Defined.

Lemma notifications_ignore_thread_id_witness :
  [(Activated, 1%Z); (Drain, 1%Z)].*1 = [(Activated, 2%Z); (Drain, 9%Z)].*1 ∧
  notify_all [(Activated, 1%Z); (Drain, 1%Z)] mockWorker =
  notify_all [(Activated, 2%Z); (Drain, 9%Z)] mockWorker.
Proof.
  split; [reflexivity|].
  exact (proj2 (proj2 (proj2 (notifications_ignore_thread_id 0 0 mockWorker
           [(Activated, 1%Z); (Drain, 1%Z)] [(Activated, 2%Z); (Drain, 9%Z)])))
         eq_refl).
Defined.

(** * Further properties *)

(** ** The queue of the default worker, over any sequence of calls *)

Section QueueRuns.
Context `{GoTypes}.
Implicit Types (w : defaultWorker) (cs : list queue_call).

Lemma chansend_callers {V : Type} (c : hchan V) (v : V) :
  (delivered (chansend v c)).*1 ++ recvq (chansend v c) =
  (delivered c).*1 ++ recvq c.
Proof.
  destruct c as [n b s r d]. unfold chansend. cbn.
  destruct r as [|g r]; cbn.
  - by case_bool_decide.
  - by rewrite fmap_app, <- app_assoc.
Qed.

Lemma chanrecv_callers {V : Type} (c : hchan V) (g : nat) :
  chan_wf c →
  (delivered (chanrecv g c).1).*1 ++ recvq (chanrecv g c).1 =
  ((delivered c).*1 ++ recvq c) ++ [g].
Proof.
  destruct c as [n b s r d]. unfold chan_wf, chanrecv. cbn. intros [Hr _].
  destruct b as [|v b], s as [|x s]; cbn; rewrite ?fmap_app; cbn;
    try (destruct r as [|g' r]; [|by destruct (Hr ltac:(done))]);
    by rewrite ?app_nil_r, <- ?app_assoc.
Qed.

(** What every sequence of calls keeps of the queue [NewWorker] made. *)
Lemma default_queue_invariant (name fileName : string) (minThreads : Z)
    (env : PreparedEnv) cs :
  let c := dw_requestChan
             (do_calls cs (NewWorker name fileName minThreads env)) in
  chan_wf c ∧ dataqsiz c = 0 ∧
  received c ++ pending c = injected cs ∧
  (delivered c).*1 ++ recvq c = callers cs.
Proof.
  induction cs as [|call cs IH] using rev_ind.
  - cbn. split; [apply make_chan_wf|done].
  - unfold do_calls, injected, callers in *. rewrite foldl_app, !omap_app.
    cbn zeta in IH. destruct IH as (Hwf & Hcap & Hfifo & Hcall).
    set (w := foldl do_call (NewWorker name fileName minThreads env) cs) in *.
    destruct call as [r|g]; cbn.
    + split; [by apply chansend_wf|]. split.
      { unfold chansend. repeat case_match; done. }
      split; [by rewrite chansend_fifo, app_assoc, Hfifo|].
      by rewrite chansend_callers, app_nil_r.
    + pose proof (chanrecv_wf _ g Hwf) as Hwf'.
      pose proof (chanrecv_fifo (dw_requestChan w) g) as Hfifo'.
      pose proof (chanrecv_callers _ g Hwf) as Hcall'.
      destruct (chanrecv g (dw_requestChan w)) as [c' o] eqn:Hrecv. cbn in *.
      split; [done|]. split.
      { unfold chanrecv in Hrecv. repeat case_match; by simplify_eq/=. }
      split; [by rewrite Hfifo', app_nil_r|]. by rewrite Hcall', Hcall.
Qed.

(** X1: whatever calls are made on the queue of a default worker, the
    requests [ProvideRequest] has returned, followed by the requests still
    in flight, are the requests injected, in the order they were injected:
    none is lost, none is returned twice, none overtakes another. *)
Theorem default_queue_conserves (name fileName : string) (minThreads : Z)
    (env : PreparedEnv) cs :
  let c := dw_requestChan
             (do_calls cs (NewWorker name fileName minThreads env)) in
  received c ++ pending c = injected cs.
Proof.
  intros c.
  destruct (default_queue_invariant name fileName minThreads env cs)
    as (_ & _ & Hfifo & _).
  exact Hfifo.
Qed.

(** X2: the callers of [ProvideRequest] are served in the order of their
    calls: the goroutines that got a request, followed by those still
    parked, are the callers in call order; a caller is parked only while
    nothing is in flight; so the number of requests handed over is the
    lesser of the number of [InjectRequest] and of [ProvideRequest]
    calls. *)
Theorem default_queue_serves_callers_in_order (name fileName : string)
    (minThreads : Z) (env : PreparedEnv) cs :
  let c := dw_requestChan
             (do_calls cs (NewWorker name fileName minThreads env)) in
  (delivered c).*1 ++ recvq c = callers cs ∧
  (recvq c = [] ∨ pending c = []) ∧
  length (delivered c) = length (injected cs) `min` length (callers cs).
Proof.
  intros c.
  destruct (default_queue_invariant name fileName minThreads env cs)
    as ([Hr _] & _ & Hfifo & Hcall). fold c in Hr, Hfifo, Hcall.
  assert (Hor : recvq c = [] ∨ pending c = []).
  { destruct (recvq c) as [|g r] eqn:Hq; [by left|right].
    destruct (Hr ltac:(done)) as [Hb Hs]. unfold pending. by rewrite Hb, Hs. }
  split; [done|]. split; [done|].
  rewrite <- Hfifo, <- Hcall, !length_app. unfold received.
  rewrite !length_fmap. destruct Hor as [-> | ->]; cbn; lia.
Qed.

(** X3: the queue of a default worker never buffers: after any calls its
    capacity is zero and its buffer is empty, so every request in flight is
    held by an [InjectRequest] still blocked in its send. *)
Theorem default_queue_never_buffers (name fileName : string)
    (minThreads : Z) (env : PreparedEnv) cs :
  let c := dw_requestChan
             (do_calls cs (NewWorker name fileName minThreads env)) in
  dataqsiz c = 0 ∧ buf c = [] ∧ pending c = sendq c.
Proof.
  intros c.
  destruct (default_queue_invariant name fileName minThreads env cs)
    as (_ & Hcap & _). fold c in Hcap.
  assert (Hbuf : buf c = []).
  { unfold c. clear c Hcap.
    induction cs as [|call cs IH] using rev_ind; [done|].
    destruct (default_queue_invariant name fileName minThreads env cs)
      as (_ & Hcap & _).
    unfold do_calls in *. rewrite foldl_app. cbn zeta in *.
    set (w := foldl do_call (NewWorker name fileName minThreads env) cs) in *.
    destruct call as [r|g]; cbn.
    - unfold chansend. rewrite Hcap, IH. by repeat case_match.
    - destruct (chanrecv g (dw_requestChan w)) as [c' o] eqn:Hrecv. cbn.
      unfold chanrecv in Hrecv. rewrite IH in Hrecv.
      repeat case_match; by simplify_eq/=. }
  unfold pending. by rewrite Hbuf.
Qed.

End QueueRuns.

(** ** The default worker under interleaved calls *)

Section WorkerRuns.
Context `{GoTypes}.
Implicit Types (w : defaultWorker).

Lemma wrap32_idemp_add (z d : Z) : wrap32 (wrap32 z + d) = wrap32 (z + d).
Proof.
  unfold wrap32.
  change (2 ^ 31)%Z with 2147483648%Z. change (2 ^ 32)%Z with 4294967296%Z.
  f_equal.
  replace ((z + 2147483648) mod 4294967296 - 2147483648 + d + 2147483648)%Z
    with ((z + 2147483648) mod 4294967296 + d)%Z by lia.
  rewrite Z.add_mod_idemp_l by lia. f_equal. lia.
Qed.

Lemma count_kind_snoc (k : notification) (ns : list (notification * Z))
    (n : notification * Z) :
  count_kind k (ns ++ [n]) =
  (count_kind k ns + if same_kind k n.1 then 1 else 0)%Z.
Proof.
  unfold count_kind. rewrite filter_app, length_app, Nat2Z.inj_add.
  f_equal. destruct (same_kind k n.1) eqn:Hk.
  - by rewrite filter_cons_True.
  - rewrite filter_cons_False; [done|]. congruence.
Qed.

(** X4: calls on the queue and lifecycle notifications on a default worker
    do not interfere, however they are interleaved: the name, the file
    name, the environment and the minimum of threads never change, the
    queue is what the queue calls alone make of it, and the counters are
    what the notifications alone make of them. *)
Theorem default_worker_calls_do_not_interfere w
    (l : list (queue_call + notification * Z)) :
  let w' := foldl do_worker_call w l in
  (Name w' = Name w ∧ FileName w' = FileName w ∧ Env w' = Env w ∧
   GetMinThreads w' = GetMinThreads w) ∧
  dw_requestChan w' = dw_requestChan (do_calls (queue_calls_of l) w) ∧
  activatedCount w' = activatedCount (notify_all (notifications_of l) w) ∧
  drainCount w' = drainCount (notify_all (notifications_of l) w).
Proof.
  induction l as [|c l IH] using rev_ind; [done|].
  cbn zeta in *. destruct IH as ((Hn & Hf & He & Hm) & Hq & Ha & Hd).
  unfold queue_calls_of, notifications_of, do_calls, notify_all in *.
  rewrite !foldl_app, !omap_app, !foldl_app. cbn [foldl].
  set (w1 := foldl do_worker_call w l) in *.
  destruct c as [[r|g]|[[] t]]; cbn -[foldl omap] in *;
    rewrite ?app_nil_r; cbn [foldl];
    cbn; rewrite <- ?Hq, <- ?Ha, <- ?Hd; try done.
  by destruct (chanrecv g (dw_requestChan w1)) as [c1 o1].
Qed.

(** X5: after any sequence of notifications the counters of a default
    worker are, up to the wrap-around of a 32-bit integer,
    [activatedCount] plus the activations minus the deactivations, and
    [drainCount] plus the drains minus the deactivations; when those
    numbers are [int32] values the counters are exactly them. *)
Theorem counters_count_notifications w (ns : list (notification * Z)) :
  counters_wf w →
  let a := (activatedCount w + count_kind Activated ns
            - count_kind Deactivated ns)%Z in
  let d := (drainCount w + count_kind Drain ns
            - count_kind Deactivated ns)%Z in
  activatedCount (notify_all ns w) = wrap32 a ∧
  drainCount (notify_all ns w) = wrap32 d ∧
  (is_int32 a → activatedCount (notify_all ns w) = a) ∧
  (is_int32 d → drainCount (notify_all ns w) = d).
Proof.
  intros [Hwa Hwd] a d.
  assert (Hboth : activatedCount (notify_all ns w) = wrap32 a ∧
                  drainCount (notify_all ns w) = wrap32 d).
  { subst a d. induction ns as [|[k t] ns IH] using rev_ind.
    - unfold count_kind. cbn. rewrite !Z.add_0_r, !Z.sub_0_r.
      by rewrite !wrap32_id.
    - destruct IH as [IHa IHd]. unfold notify_all in *. rewrite foldl_app.
      rewrite !count_kind_snoc. cbn [foldl].
      set (w1 := foldl notify w ns) in *.
      destruct k; cbn; unfold atomic_Int32_Add; rewrite ?IHa, ?IHd;
        rewrite ?wrap32_idemp_add; split; f_equal; lia. }
  destruct Hboth as [Ha Hd]. rewrite Ha, Hd.
  repeat split; apply wrap32_id.
Qed.

End WorkerRuns.

(** ** The registries over sequences of registrations *)

(** X6: after workers are registered one after the other, a name is bound
    to the last of them that bears it, and to what it was bound to before
    when none of them bears it. *)
Theorem register_sequence_last_wins `{GoTypes} {W : Type} `{!Worker W}
    (hs : list W) (m : gmap string W) (n : string) :
  RegisterWorkers hs m !! n =
  match last (filter (λ h, Name h = n) hs) with
  | Some h => Some h
  | None => m !! n
  end.
Proof.
  induction hs as [|h hs IH] using rev_ind; [done|].
  unfold RegisterWorkers in *. rewrite foldl_app, filter_app. cbn [foldl].
  unfold RegisterWorker at 1.
  destruct (decide (Name h = n)) as [Heq|Hne].
  - rewrite filter_cons_True by done. rewrite filter_nil, last_snoc.
    rewrite <- Heq. apply lookup_insert_eq.
  - rewrite filter_cons_False by done. rewrite filter_nil, app_nil_r.
    rewrite lookup_insert_ne by done. apply IH.
Qed.

(** X7: removing a worker's name from a registry after registering the
    worker, as the tests do when they end, leaves the registry as it was
    without that name: what was registered there under the same name
    before is gone too, and a registry that did not hold the name is
    restored exactly.  So for both registries. *)
Theorem register_then_delete `{GoTypes} {W X : Type}
    `{!Worker W} `{!ThreadFramework.WorkerExtension X}
    (h : W) (m : gmap string W) (x : X) (mx : gmap string X) :
  (delete (Name h) (RegisterWorker h m) = delete (Name h) m ∧
   (m !! Name h = None → delete (Name h) (RegisterWorker h m) = m)) ∧
  (delete (ThreadFramework.Name x)
     (ThreadFramework.RegisterExternalWorker x mx) =
     delete (ThreadFramework.Name x) mx ∧
   (mx !! ThreadFramework.Name x = None →
    delete (ThreadFramework.Name x)
      (ThreadFramework.RegisterExternalWorker x mx) = mx)).
Proof.
  unfold RegisterWorker, ThreadFramework.RegisterExternalWorker.
  rewrite !delete_insert_eq.
  split; (split; [done|]); intros Hnone; by apply delete_id.
Qed.

(** ** The pipes over whole runs *)

Section PipeRuns.
Context `{GoTypes} `{!Collaborators}.
Implicit Types (st : pipe_state) (acts : list action).

(** The two ways an iteration ends: it goes on after logging at most one
    record, or it sends the context it has prepared. *)
Lemma pipe_iter_cases (p : pipe) (w : worker) (thread : phpThread)
    (rq : option WorkerRequest) st st' :
  pipe_iter p w thread rq st = Ok st' →
  (served p w rq = None ∧
   st' = continue (match log_of p w thread rq with
                   | Some r => emit (EvLog r) st
                   | None => st
                   end)) ∨
  (∃ rq0 fc r,
     rq = Some rq0 ∧ served p w rq = Some rq0 ∧ carries p w rq0 fc ∧
     log_of p w thread rq = Some r ∧
     st' = continue (dispatch rq0 fc (emit (EvLog r) st))).
Proof.
  destruct p, rq as [rq|]; cbn;
    unfold startWorker_iter, startExternalWorkerPipe_iter, served, serves,
      log_of; cbn;
    repeat case_match; intros; simplify_eq;
    try (left; split; reflexivity);
    right; do 3 eexists; (split; [reflexivity|]);
    repeat split; reflexivity.
Qed.

Lemma run_invariant (P : pipe_state → Prop) (p : pipe) (w : worker)
    (thread : phpThread) acts st st' :
  (∀ act s s', pipe_inv s → P s → step p w thread act s = Ok s' → P s') →
  pipe_inv st → P st →
  run p w thread acts st = Ok st' → P st'.
Proof.
  intros Hstep. revert st.
  induction acts as [|act acts IH]; cbn; intros st Hinv HP Hrun.
  - by simplify_eq.
  - destruct (step p w thread act st) as [st1|] eqn:Hs; [|done].
    eapply IH; [by eapply step_inv|by eapply Hstep|done].
Qed.

(** X8: a pipe of [startExternalWorkerPipe] never panics, whatever is
    provided and however the engine and the goroutines are scheduled; a
    pipe of [startWorker] panics exactly when [ProvideRequest] returns a
    nil request, and then with a nil dereference. *)
Theorem pipe_panics_exactly_on_nil_request (w : worker) (thread : phpThread)
    acts st :
  (∃ st', run StartExternalWorkerPipe w thread acts st = Ok st') ∧
  ((∃ reason, run StartWorker w thread acts st = Panic reason) ↔
   None ∈ provided acts) ∧
  (∀ reason, run StartWorker w thread acts st = Panic reason →
             reason = nil_dereference).
Proof.
  assert (Hstep : ∀ pp act s,
            (∃ s', step pp w thread act s = Ok s') ∨
            (pp = StartWorker ∧ act = Provided None ∧
             step pp w thread act s = Panic nil_dereference)).
  { intros pp [[rq|]|a v|k] s; cbn; eauto; destruct pp; cbn;
      unfold startWorker_iter, startExternalWorkerPipe_iter;
      repeat case_match; eauto. }
  split; [|split].
  - revert st. induction acts as [|act acts IH]; intros st; cbn [run]; eauto.
    destruct (Hstep StartExternalWorkerPipe act st)
      as [[s' ->]|(? & _)]; [eauto|done].
  - revert st. unfold provided.
    induction acts as [|act acts IH]; intros st; cbn [run omap list_omap].
    + split; [intros [? ?]; done|]. intros Hin. by apply elem_of_nil in Hin.
    + destruct (Hstep StartWorker act st) as [[s' Hs]|(_ & -> & Hs)];
        rewrite Hs.
      * rewrite IH. destruct act as [[rq|]|a v|k]; cbn; rewrite ?elem_of_cons;
          first [done | discriminate Hs | intuition discriminate].
      * cbn. split; [intros _; by left|eauto].
  - revert st. induction acts as [|act acts IH]; intros st reason; cbn [run];
      [done|].
    destruct (Hstep StartWorker act st) as [[s' Hs]|(_ & -> & Hs)]; rewrite Hs.
    + apply IH.
    + intros Heq. by simplify_eq.
Qed.

Lemma step_observed (p : pipe) (w : worker) (thread : phpThread)
    (act : action) st st' :
  step p w thread act st = Ok st' →
  let rq := provided_of act in
  sent_requests st' =
    sent_requests st ++ from_option (λ r, option_list (served p w r)) [] rq ∧
  logged st' =
    logged st ++ from_option (λ r, option_list (log_of p w thread r)) [] rq ∧
  iter st' = iter st + from_option (λ _, 1) 0 rq.
Proof.
  unfold sent_requests, logged.
  destruct act as [rq|a v|k]; cbn; intros Hs.
  - apply pipe_iter_cases in Hs
      as [[-> ->]|(rq0 & fc & r & -> & -> & _ & -> & ->)]; cbn.
    + destruct (log_of p w thread rq); cbn;
        rewrite ?omap_app, ?app_nil_r; cbn; rewrite ?app_nil_r;
        repeat split; lia.
    + rewrite !omap_app. cbn. rewrite !app_nil_r.
      repeat split; lia.
  - simplify_eq. unfold engine_done. repeat case_match; cbn;
      rewrite ?omap_app, ?app_nil_r; cbn; rewrite ?app_nil_r;
      repeat split; lia.
  - simplify_eq. unfold wake. repeat case_match; cbn;
      rewrite ?omap_app, ?app_nil_r; cbn; rewrite ?app_nil_r;
      repeat split; lia.
Qed.

(** X9: in any run, the requests whose context a pipe sends to the engine
    are, in order, the requests [ProvideRequest] returned that the loop
    serves: the engine gets the requests in the order they were provided,
    each at most once, and every provided request takes one iteration. *)
Theorem pipe_sends_in_provided_order (p : pipe) (w : worker)
    (thread : phpThread) acts st st' :
  run p w thread acts st = Ok st' →
  sent_requests st' = sent_requests st ++ omap (served p w) (provided acts) ∧
  iter st' = iter st + length (provided acts).
Proof.
  revert st. unfold provided.
  induction acts as [|act acts IH]; cbn [run]; intros st Hrun.
  - simplify_eq. cbn. rewrite app_nil_r. split; [done|lia].
  - destruct (step p w thread act st) as [st1|] eqn:Hs; [|done].
    destruct (IH _ Hrun) as [-> ->].
    destruct (step_observed _ _ _ _ _ _ Hs) as (-> & _ & ->).
    destruct act as [rq|a v|k]; cbn; rewrite ?app_nil_r; [|split; [done|lia]..].
    destruct (served p w rq); cbn; rewrite <- ?app_assoc, ?app_nil_r; cbn;
      split; try done; lia.
Qed.

(** X10: in any run, the records a pipe logs are, in order, one record for
    each provided request: level info when its context is sent, level
    error with the error when its payload does not adapt, level warn for a
    request without payload in [startExternalWorkerPipe], and none when the
    adapted request carries no context.  The engine and the waiting
    goroutines log nothing. *)
Theorem pipe_log_follows_provided (p : pipe) (w : worker)
    (thread : phpThread) acts st st' :
  run p w thread acts st = Ok st' →
  logged st' = logged st ++ omap (log_of p w thread) (provided acts).
Proof.
  revert st. unfold provided.
  induction acts as [|act acts IH]; cbn [run]; intros st Hrun.
  - simplify_eq. cbn. by rewrite app_nil_r.
  - destruct (step p w thread act st) as [st1|] eqn:Hs; [|done].
    rewrite (IH _ Hrun).
    destruct (step_observed _ _ _ _ _ _ Hs) as (_ & -> & _).
    destruct act as [rq|a v|k]; cbn; rewrite ?app_nil_r; try done.
    destruct (log_of p w thread rq); cbn; by rewrite <- ?app_assoc, ?app_nil_r.
Qed.

End PipeRuns.

Section PipeStore.
Context `{GoTypes} `{!Collaborators}.
Implicit Types (st : pipe_state) (acts : list action).

(** X11: in any run from the start, every context a pipe has sent sits in
    the store with the response writer and the callback parameters of its
    request, and in [startWorker] with the worker; the engine finishing
    contexts and the goroutines running do not change that. *)
Theorem sent_context_carries_request (p : pipe) (w : worker)
    (thread : phpThread) acts st (it a : nat) (rq : WorkerRequest) :
  run p w thread acts init_state = Ok st →
  EvSend it a rq ∈ trace st →
  ∃ fc, heap st !! a = Some fc ∧ carries p w rq fc.
Proof.
  intros Hrun. revert it a rq.
  apply (run_invariant
           (λ s, ∀ it a rq, EvSend it a rq ∈ trace s →
                            ∃ fc, heap s !! a = Some fc ∧ carries p w rq fc)
           p w thread acts init_state st); [|apply init_inv| |done].
  2:{ intros it a rq Hin. by apply elem_of_nil in Hin. }
  intros act s s' Hinv HP Hs it a rq.
  destruct act as [rq1|a1 v|k]; cbn in Hs.
  - apply pipe_iter_cases in Hs
      as [[_ ->]|(rq0 & fc & r & -> & _ & Hc & _ & ->)].
    + destruct (log_of p w thread rq1); cbn; [|apply HP].
      rewrite elem_of_app, list_elem_of_singleton.
      intros [Hin|?]; [by eapply HP|done].
    + cbn. rewrite !elem_of_app, !list_elem_of_singleton.
      intros [[Hin|?]|Heq]; [|done|].
      * destruct (HP _ _ _ Hin) as (fc' & Hfc & Hc').
        exists fc'. split; [|done].
        rewrite lookup_app_l; [done|]. by eapply lookup_lt_Some.
      * simplify_eq. exists fc. split; [|done].
        rewrite lookup_app_r by lia. by rewrite Nat.sub_diag.
  - simplify_eq. unfold engine_done.
    destruct (heap s !! a1) as [fc1|] eqn:H1; [|apply HP].
    destruct (done fc1); [apply HP|]. cbn.
    rewrite elem_of_app, list_elem_of_singleton. intros [Hin|?]; [|done].
    destruct (HP _ _ _ Hin) as (fc' & Hfc & Hc').
    destruct (decide (a1 = a)) as [->|Hne].
    + eexists. rewrite list_lookup_insert_eq by (by eapply lookup_lt_Some).
      split; [done|]. simplify_eq. done.
    + exists fc'. by rewrite list_lookup_insert_ne.
  - simplify_eq.
    destruct (wake_cases k s)
      as [[-> _]|(wt & fc & l1 & l2 & _ & _ & _ & _ & ->)]; [apply HP|].
    cbn zeta. destruct (AfterFunc (wt_rq wt)); cbn; [|apply HP].
    rewrite elem_of_app, list_elem_of_singleton.
    intros [Hin|?]; [by eapply HP|done].
Qed.


(** X13: in any run from the start, the goroutines still waiting together
    with the calls made are, as multisets of iterations, the sends of
    requests that have a callback: a request without callback spawns
    nothing, a goroutine ends with its one call, and none ends without
    it. *)
Theorem goroutines_and_calls_balance (p : pipe) (w : worker)
    (thread : phpThread) acts st :
  run p w thread acts init_state = Ok st →
  (wt_iter <$> waiters st) ++ called st ≡ₚ spawned st.
Proof.
  apply (run_invariant
           (λ s, (wt_iter <$> waiters s) ++ called s ≡ₚ spawned s)
           p w thread acts init_state st); [|apply init_inv|done].
  intros act s s' Hinv HP Hs. unfold called, spawned in *.
  destruct act as [rq1|a1 v|k]; cbn in Hs.
  - apply pipe_iter_cases in Hs
      as [[_ ->]|(rq0 & fc & r & -> & _ & _ & _ & ->)].
    + destruct (log_of p w thread rq1); cbn; [|done].
      rewrite !omap_app. cbn. by rewrite !app_nil_r.
    + cbn. rewrite !omap_app. cbn. rewrite !app_nil_r.
      destruct (AfterFunc rq0); cbn; rewrite ?app_nil_r; [|done].
      rewrite fmap_app. cbn. rewrite <- HP.
      rewrite <- !app_assoc. apply Permutation_app_head, Permutation_app_comm.
  - simplify_eq. unfold engine_done. repeat case_match; cbn; try done.
    rewrite !omap_app. cbn. by rewrite !app_nil_r.
  - simplify_eq.
    destruct (wake_cases k s)
      as [[-> _]|(wt & fc & l1 & l2 & Hws & _ & _ & _ & ->)]; [done|].
    assert (Hwt : wt ∈ waiters s).
    { rewrite Hws. apply elem_of_app. right. by left. }
    destruct (inv_waiter s Hinv wt Hwt) as [_ [f Hf]]. rewrite Hf. cbn.
    rewrite !omap_app. cbn. rewrite app_nil_r, <- HP, Hws.
    rewrite !fmap_app, fmap_cons, <- !app_assoc.
    apply Permutation_app_head. cbn.
    rewrite (Permutation_app_comm (omap called_of (trace s)) [wt_iter wt]).
    cbn. apply Permutation_sym, Permutation_middle.
Qed.

End PipeStore.

(** ** The validator of the extension generator *)

Section ValidatorProperties.
Import Extgen.
Context `{PhpTypeNames} `{GoParser}.

Lemma name_pattern_nonempty (s : string) : name_pattern s = true → s ≠ "".
Proof. by destruct s. Qed.

Lemma validateParameter_None (param : phpParameter) :
  validateParameter param = None ↔
  name_pattern (param_Name param) = true ∧ PhpType param ∈ paramTypes.
Proof.
  unfold validateParameter, parameterNameRegex, Contains.
  case_bool_decide as Hn.
  { split; [done|]. intros [Hp _]. by apply name_pattern_nonempty in Hp. }
  destruct (name_pattern (param_Name param)); cbn.
  - case_bool_decide; cbn; split; intuition congruence.
  - split; [done|]. by intros [? _].
Qed.

Lemma validateParameters_None (i : nat) (params : list phpParameter) :
  validateParameters i params = None ↔
  Forall (λ p, validateParameter p = None) params.
Proof.
  revert i. induction params as [|p ps IH]; intros i; cbn.
  - split; [constructor|done].
  - rewrite Forall_cons. destruct (validateParameter p) eqn:Hp.
    + split; [done|]. by intros [? _].
    + rewrite IH. intuition congruence.
Qed.

Lemma validateParameters_Some (k : nat) (params : list phpParameter)
    (err : verror) :
  validateParameters k params = Some err →
  ∃ i p e, err = InParameter (k + i) (param_Name p) e ∧
           params !! i = Some p ∧ validateParameter p = Some e ∧
           ∀ j q, j < i → params !! j = Some q → validateParameter q = None.
Proof.
  revert k. induction params as [|p ps IH]; intros k; cbn; [done|].
  destruct (validateParameter p) as [e|] eqn:Hp.
  - intros [= <-]. exists 0, p, e. rewrite Nat.add_0_r.
    repeat split; try done. intros j q Hj. lia.
  - intros (i & p' & e & -> & Hi & He & Hbefore)%IH.
    exists (S i), p', e. replace (S k + i) with (k + S i) by lia.
    repeat split; try done.
    intros [|j] q Hj Hq; cbn in Hq; [by simplify_eq|].
    apply (Hbefore j); [lia|done].
Qed.

(** X14: [validateFunction] accepts a function exactly when its name
    matches the name pattern, every parameter has a name that matches it
    and a type among the parameter types, and the return type is among the
    return types. *)
Theorem validateFunction_accepts_iff (fn : phpFunction) :
  validateFunction fn = None ↔
  name_pattern (fn_Name fn) = true ∧
  Forall (λ p, name_pattern (param_Name p) = true ∧ PhpType p ∈ paramTypes)
    (Params fn) ∧
  ReturnType fn ∈ returnTypes.
Proof.
  assert (Hall : Forall (λ p, validateParameter p = None) (Params fn) ↔
                 Forall (λ p, name_pattern (param_Name p) = true ∧
                              PhpType p ∈ paramTypes) (Params fn)).
  { apply Forall_proper; [|done]. intros p. apply validateParameter_None. }
  unfold validateFunction, functionNameRegex, validateReturnType, Contains.
  case_bool_decide as Hn.
  { split; [done|]. intros [Hp _]. by apply name_pattern_nonempty in Hp. }
  destruct (name_pattern (fn_Name fn)); cbn; [|split; [done|by intros [? _]]].
  destruct (validateParameters 0 (Params fn)) as [err|] eqn:Hps.
  - split; [done|]. intros (_ & Hf & _).
    apply Hall, (validateParameters_None 0) in Hf. congruence.
  - apply validateParameters_None, Hall in Hps.
    case_bool_decide; cbn; split; intuition congruence.
Qed.

(** X15: when a function with a good name has a parameter that does not
    validate, [validateFunction] reports the first such parameter, with its
    index counted from zero, its name and its error; a bad parameter hides
    a bad return type. *)
Theorem validateFunction_reports_first_parameter (fn : phpFunction) :
  name_pattern (fn_Name fn) = true →
  (∀ i n e,
     validateFunction fn = Some (InParameter i n e) →
     ∃ p, Params fn !! i = Some p ∧ n = param_Name p ∧
          validateParameter p = Some e ∧
          ∀ j q, j < i → Params fn !! j = Some q →
                 validateParameter q = None) ∧
  (Exists (λ p, validateParameter p ≠ None) (Params fn) →
   ∃ i n e, validateFunction fn = Some (InParameter i n e)).
Proof.
  intros Hname. pose proof (name_pattern_nonempty _ Hname) as Hne.
  unfold validateFunction, functionNameRegex.
  rewrite bool_decide_eq_false_2 by done. rewrite Hname. cbn.
  destruct (validateParameters 0 (Params fn)) as [err|] eqn:Hps.
  - apply validateParameters_Some in Hps
      as (i & p & e & -> & Hi & He & Hbefore).
    split; [|eauto]. intros i' n e' [= <- <- <-]. eauto.
  - split.
    + intros i n e. unfold validateReturnType. by case_match.
    + intros Hex. apply validateParameters_None in Hps.
      apply Exists_exists in Hex as (p & Hin & Hp).
      rewrite Forall_forall in Hps. by destruct (Hp (Hps p Hin)).
Qed.

(** X16: [validateClass] accepts a class exactly when its name matches
    the name pattern and every property has a name that matches it and a
    type among the property types. *)
Theorem validateClass_accepts_iff (class : phpClass) :
  validateClass class = None ↔
  name_pattern (class_Name class) = true ∧
  Forall (λ p, name_pattern (prop_Name p) = true ∧
               prop_PhpType p ∈ propTypes) (Properties class).
Proof.
  assert (Hprop : ∀ p, validateClassProperty p = None ↔
            name_pattern (prop_Name p) = true ∧ prop_PhpType p ∈ propTypes).
  { intros p. unfold validateClassProperty, propNameRegex, Contains.
    case_bool_decide as Hn.
    { split; [done|]. intros [Hp _]. by apply name_pattern_nonempty in Hp. }
    destruct (name_pattern (prop_Name p)); cbn.
    - case_bool_decide; cbn; split; intuition congruence.
    - split; [done|]. by intros [? _]. }
  assert (Hprops : ∀ i ps, validateProperties i ps = None ↔
            Forall (λ p, validateClassProperty p = None) ps).
  { intros i ps. revert i. induction ps as [|p ps IH]; intros i; cbn.
    - split; [constructor|done].
    - rewrite Forall_cons. destruct (validateClassProperty p) eqn:Hp.
      + split; [done|]. by intros [? _].
      + rewrite IH. intuition congruence. }
  unfold validateClass, classNameRegex.
  case_bool_decide as Hn.
  { split; [done|]. intros [Hp _]. by apply name_pattern_nonempty in Hp. }
  destruct (name_pattern (class_Name class)); cbn;
    [|split; [done|by intros [? _]]].
  rewrite Hprops. split.
  - intros Hf. split; [done|]. eapply Forall_impl; [done|]. apply Hprop.
  - intros [_ Hf]. eapply Forall_impl; [done|]. apply Hprop.
Qed.

Lemma validateParamTypes_None (i : nat) (params : list phpParameter) :
  validateParamTypes i params = None ↔
  Forall (λ p, PhpType p ∈ supportedTypes) params.
Proof.
  revert i. induction params as [|p ps IH]; intros i; cbn.
  - split; [constructor|done].
  - rewrite Forall_cons. unfold Contains at 1. case_bool_decide; cbn.
    + rewrite IH. intuition congruence.
    + split; [done|]. by intros [? _].
Qed.

Lemma validateParamTypes_Some (k : nat) (params : list phpParameter)
    (err : verror) :
  validateParamTypes k params = Some err →
  ∃ i p, err = ParameterUnsupported (k + i + 1) (param_Name p) (PhpType p) ∧
         params !! i = Some p ∧ (PhpType p ∉ supportedTypes) ∧
         ∀ j q, j < i → params !! j = Some q → PhpType q ∈ supportedTypes.
Proof.
  revert k. induction params as [|p ps IH]; intros k; cbn; [done|].
  unfold Contains at 1. case_bool_decide as Hp; cbn.
  - intros (i & p' & -> & Hi & Hbad & Hbefore)%IH.
    exists (S i), p'. replace (S k + i + 1) with (k + S i + 1) by lia.
    repeat split; try done.
    intros [|j] q Hj Hq; cbn in Hq; [by simplify_eq|].
    apply (Hbefore j); [lia|done].
  - intros [= <-]. exists 0, p. rewrite Nat.add_0_r.
    repeat split; try done. intros j q Hj. lia.
Qed.

(** X17: [validateTypes] is the narrower check.  A function it accepts,
    whose names match the name pattern, is accepted by [validateFunction]
    too.  With the constants of [phpType] distinct, the converse fails on
    objects: [validateParameter] accepts a well-named parameter of type
    object, and [validateTypes] rejects every function that has one. *)
Theorem validateTypes_narrower_than_validateFunction (fn : phpFunction) :
  (validateTypes fn = None →
   name_pattern (fn_Name fn) = true →
   Forall (λ p, name_pattern (param_Name p) = true) (Params fn) →
   validateFunction fn = None) ∧
  (php_types_distinct →
   (∀ p, PhpType p = phpObject → name_pattern (param_Name p) = true →
         validateParameter p = None) ∧
   (Exists (λ p, PhpType p = phpObject) (Params fn) →
    validateTypes fn ≠ None)).
Proof.
  split.
  - unfold validateTypes. intros Hty Hname Hnames.
    destruct (validateParamTypes 0 (Params fn)) eqn:Hps; [done|].
    apply validateParamTypes_None in Hps.
    assert (Hparams : validateParameters 0 (Params fn) = None).
    { apply validateParameters_None, Forall_forall. intros p Hin.
      rewrite Forall_forall in Hps, Hnames.
      apply validateParameter_None. split; [by apply Hnames|].
      specialize (Hps p Hin). unfold supportedTypes, paramTypes in *.
      set_solver. }
    unfold validateFunction, functionNameRegex, validateReturnType, Contains.
    rewrite bool_decide_eq_false_2 by (by apply name_pattern_nonempty).
    rewrite Hname, Hparams. cbn.
    rewrite bool_decide_eq_true_2; [done|].
    unfold Contains in Hty. unfold supportedTypes, returnTypes in *.
    repeat case_bool_decide; try done; set_solver.
  - intros Hdistinct.
    assert (Hobj : phpObject ∉ supportedTypes).
    { unfold php_types_distinct in Hdistinct. unfold supportedTypes.
      repeat (apply NoDup_cons in Hdistinct as [? Hdistinct]). set_solver. }
    split.
    + intros p Hp Hn. apply validateParameter_None. split; [done|].
      rewrite Hp. unfold paramTypes. set_solver.
    + intros (p & Hin & Hp)%Exists_exists. unfold validateTypes.
      destruct (validateParamTypes 0 (Params fn)) eqn:Hps; [done|].
      apply validateParamTypes_None in Hps. rewrite Forall_forall in Hps.
      specialize (Hps p Hin). rewrite Hp in Hps. done.
Qed.

(** X18: when [validateTypes] rejects a parameter it reports the first one
    whose type is not supported, and numbers it from one, where
    [validateFunction] numbers from zero: the parameter reported as [n] is
    the one at index [n - 1]. *)
Theorem validateTypes_reports_first_parameter_from_one (fn : phpFunction)
    (n : nat) (name : string) (t : phpType) :
  validateTypes fn = Some (ParameterUnsupported n name t) →
  ∃ p, (1 ≤ n) ∧ Params fn !! (n - 1) = Some p ∧
       name = param_Name p ∧ t = PhpType p ∧ (t ∉ supportedTypes) ∧
       ∀ j q, j < n - 1 → Params fn !! j = Some q →
              PhpType q ∈ supportedTypes.
Proof.
  unfold validateTypes.
  destruct (validateParamTypes 0 (Params fn)) as [err|] eqn:Hps.
  - apply validateParamTypes_Some in Hps as (i & p & -> & Hi & Hbad & Hbefore).
    intros [= <- <- <-]. exists p.
    cbn [Nat.add]. rewrite Nat.add_sub.
    split; [lia|]. split; [exact Hi|]. split; [reflexivity|].
    split; [reflexivity|]. split; [exact Hbad|exact Hbefore].
  - by case_match.
Qed.

(** X19: nullability and the Go type of a parameter.  For a string and for
    an array the expected Go type is the same whether the parameter is
    nullable or not; for every other type the nullable parameter expects a
    pointer, and no Go type is compatible with both the nullable and the
    plain parameter. *)
Theorem nullability_of_go_types (t : phpType) (actual : string) :
  phpTypeToGoType phpString true = phpTypeToGoType phpString false ∧
  phpTypeToGoType phpArray true = phpTypeToGoType phpArray false ∧
  (t ≠ phpString → t ≠ phpArray →
   phpTypeToGoType t true = String.append "*" (phpTypeToGoType t false) ∧
   (isCompatibleGoType (phpTypeToGoType t true) actual = true →
    isCompatibleGoType (phpTypeToGoType t false) actual = false)).
Proof.
  split; [|split].
  - unfold phpTypeToGoType.
    by rewrite (bool_decide_eq_true_2 (phpString = phpString)) by done.
  - unfold phpTypeToGoType.
    rewrite (bool_decide_eq_true_2 (phpArray = phpArray)) by done.
    by rewrite andb_false_r.
  - intros Hs Ha. unfold phpTypeToGoType.
    rewrite (bool_decide_eq_false_2 (t = phpString)) by done.
    rewrite (bool_decide_eq_false_2 (t = phpArray)) by done.
    split; [done|]. cbn [andb negb orb].
    unfold isCompatibleGoType.
    repeat (case_bool_decide; cbn; simplify_eq; try done).
Qed.



(** X21: the flag [isMethod] matters only for a Go function without
    receiver that has parameters: when the Go function has a receiver, or
    has no parameter, the check gives the same result for a method and for
    a function. *)
Theorem isMethod_only_shifts_plain_functions (phpFunc : phpFunction)
    (decls : list Decl) (goFunc : FuncDecl) :
  ParseFile (String.append "package main"
               (String.append newline (GoFunction phpFunc))) = inr decls →
  firstFuncDecl decls = Some goFunc →
  hasReceiver goFunc = true ∨ goParamCount goFunc = 0 →
  validateGoFunctionSignatureWithOptions phpFunc true =
  validateGoFunctionSignatureWithOptions phpFunc false.
Proof.
  intros Hparse Hfirst Hcase. unfold validateGoFunctionSignatureWithOptions.
  rewrite Hparse, Hfirst. cbn zeta.
  assert (Heff : effectiveGoParamCount goFunc true =
                 effectiveGoParamCount goFunc false).
  { unfold effectiveGoParamCount. destruct Hcase as [-> | ->]; [done|].
    by destruct (hasReceiver goFunc). }
  assert (Hoff : paramOffset goFunc true = paramOffset goFunc false).
  { unfold paramOffset. destruct Hcase as [-> | ->]; [done|].
    by destruct (hasReceiver goFunc). }
  by rewrite Heff, Hoff.
Qed.



(** X23: the types [validateTypes] supports are types [phpTypeToGoType]
    knows: a supported parameter type never expects the Go type any, nor a
    pointer to it.  With the constants of [phpType] distinct, the one
    parameter type that [validateParameter] accepts and [validateTypes]
    does not, object, expects any; and the return type mixed, though
    supported, expects any too. *)
Theorem supported_types_have_go_types (t : phpType) (isNullable : bool) :
  (t ∈ supportedTypes →
   phpTypeToGoType t isNullable ≠ "any" ∧
   phpTypeToGoType t isNullable ≠ "*any") ∧
  (php_types_distinct →
   (t ∈ paramTypes → t ∉ supportedTypes →
    t = phpObject ∧ phpTypeToGoType t false = "any" ∧
    phpTypeToGoType t true = "*any") ∧
   phpMixed ∈ supportedTypes ∧ phpReturnTypeToGoType phpMixed = "any").
Proof.
  split.
  - unfold supportedTypes, phpTypeToGoType. intros Hin.
    assert (Hcase : t = phpString ∨ t = phpInt ∨ t = phpFloat ∨ t = phpBool ∨
                    t = phpArray ∨ t = phpMixed) by set_solver.
    clear Hin.
    destruct isNullable;
      repeat (case_bool_decide; cbn; try done); intuition congruence.
  - intros Hd. unfold php_types_distinct in Hd.
    repeat (apply NoDup_cons in Hd as [? Hd]).
    split; [|split].
    + intros Hin Hnot. unfold paramTypes, supportedTypes in *.
      assert (t = phpObject) as -> by set_solver.
      split; [done|]. unfold phpTypeToGoType.
      repeat (rewrite bool_decide_eq_false_2 by set_solver). done.
    + unfold supportedTypes. set_solver.
    + unfold phpReturnTypeToGoType.
      repeat (rewrite bool_decide_eq_false_2 by set_solver). done.
Qed.

End ValidatorProperties.

(** ** The further properties on the fixtures *)

Lemma counters_count_notifications_witness :
  counters_wf mockWorker ∧
  activatedCount
    (notify_all [(Activated, 1%Z); (Activated, 2%Z); (Drain, 2%Z);
                 (Deactivated, 1%Z)] mockWorker) = 1%Z ∧
  drainCount
    (notify_all [(Activated, 1%Z); (Activated, 2%Z); (Drain, 2%Z);
                 (Deactivated, 1%Z)] mockWorker) = 0%Z.
Proof.
  split; [exact mockWorker_counters_wf|].
  destruct (counters_count_notifications mockWorker
              [(Activated, 1%Z); (Activated, 2%Z); (Drain, 2%Z);
               (Deactivated, 1%Z)] mockWorker_counters_wf)
    as (_ & _ & Ha & Hd).
  split; [apply Ha|apply Hd]; split; discriminate.
Defined.

Lemma register_then_delete_witness :
  (∅ : gmap string defaultWorker) !! Name mockWorker = None ∧
  delete (Name mockWorker) (RegisterWorker mockWorker ∅) =
    (∅ : gmap string defaultWorker) ∧
  delete (ThreadFramework.Name mockWorker)
    (ThreadFramework.RegisterExternalWorker mockWorker ∅) =
    (∅ : gmap string defaultWorker).
Proof.
  assert (Hm : (∅ : gmap string defaultWorker) !! Name mockWorker = None)
    by reflexivity.
  assert (Hx : (∅ : gmap string defaultWorker) !!
                 ThreadFramework.Name mockWorker = None) by reflexivity.
  split; [exact Hm|].
  destruct (register_then_delete mockWorker ∅ mockWorker ∅)
    as [(_ & Hr) (_ & Hw)].
  split; [exact (Hr Hm)|exact (Hw Hx)].
Defined.

Lemma pipe_panics_exactly_on_nil_request_witness :
  None ∈ provided [Provided (Some get_test); Provided None] ∧
  (∃ reason,
     run StartWorker engine_worker thread3
       [Provided (Some get_test); Provided None] init_state = Panic reason) ∧
  (∃ st',
     run StartExternalWorkerPipe engine_worker thread3
       [Provided (Some get_test); Provided None] init_state = Ok st').
Proof.
  assert (Hnil : None ∈ provided [Provided (Some get_test); Provided None]).
  { apply (list_elem_of_lookup_2 _ 1). reflexivity. }
  split; [exact Hnil|].
  destruct (pipe_panics_exactly_on_nil_request engine_worker thread3
              [Provided (Some get_test); Provided None] init_state)
    as (Hext & Hiff & _).
  split; [exact (proj2 Hiff Hnil)|exact Hext].
Defined.

Lemma pipe_sends_in_provided_order_witness :
  run StartExternalWorkerPipe engine_worker thread3 mixed_run init_state =
    Ok mixed_served ∧
  sent_requests mixed_served = [get_test] ∧
  iter mixed_served = 5.
Proof.
  assert (Hrun : run StartExternalWorkerPipe engine_worker thread3 mixed_run
                   init_state = Ok mixed_served) by reflexivity.
  split; [exact Hrun|].
  exact (pipe_sends_in_provided_order StartExternalWorkerPipe engine_worker
           thread3 mixed_run init_state mixed_served Hrun).
Defined.

Lemma pipe_log_follows_provided_witness :
  run StartExternalWorkerPipe engine_worker thread3 mixed_run init_state =
    Ok mixed_served ∧
  level <$> logged mixed_served =
    [LevelWarn; LevelError; LevelInfo; LevelWarn].
Proof.
  assert (Hrun : run StartExternalWorkerPipe engine_worker thread3 mixed_run
                   init_state = Ok mixed_served) by reflexivity.
  split; [exact Hrun|].
  rewrite (pipe_log_follows_provided StartExternalWorkerPipe engine_worker
             thread3 mixed_run init_state mixed_served Hrun).
  reflexivity.
Defined.

Lemma sent_context_carries_request_witness :
  run StartWorker engine_worker thread3 get_test_run init_state =
    Ok get_test_served ∧
  EvSend 0 0 get_test ∈ trace get_test_served ∧
  ∃ fc, heap get_test_served !! 0 = Some fc ∧
        carries StartWorker engine_worker get_test fc.
Proof.
  assert (Hrun : run StartWorker engine_worker thread3 get_test_run
                   init_state = Ok get_test_served) by reflexivity.
  assert (Hsend : EvSend 0 0 get_test ∈ trace get_test_served).
  { apply (list_elem_of_lookup_2 _ 1). reflexivity. }
  split; [exact Hrun|]. split; [exact Hsend|].
  exact (sent_context_carries_request StartWorker engine_worker thread3
           get_test_run get_test_served 0 0 get_test Hrun Hsend).
Defined.


Lemma goroutines_and_calls_balance_witness :
  run StartWorker engine_worker thread3 two_goroutines_run init_state =
    Ok two_goroutines_served ∧
  wt_iter <$> waiters two_goroutines_served = [1] ∧
  called two_goroutines_served = [0] ∧
  [1] ++ [0] ≡ₚ spawned two_goroutines_served.
Proof.
  assert (Hrun : run StartWorker engine_worker thread3 two_goroutines_run
                   init_state = Ok two_goroutines_served) by reflexivity.
  split; [exact Hrun|]. do 2 (split; [reflexivity|]).
  exact (goroutines_and_calls_balance StartWorker engine_worker thread3
           two_goroutines_run two_goroutines_served Hrun).
Defined.

Section ValidatorFixtures.
Import Extgen.

Lemma validateFunction_accepts_iff_witness :
  (name_pattern (fn_Name repeat_function) = true ∧
   Forall (λ p, name_pattern (param_Name p) = true ∧ PhpType p ∈ paramTypes)
     (Params repeat_function) ∧
   ReturnType repeat_function ∈ returnTypes) ∧
  validateFunction repeat_function = None.
Proof.
  assert (Hok : name_pattern (fn_Name repeat_function) = true ∧
                Forall (λ p, name_pattern (param_Name p) = true ∧
                             PhpType p ∈ paramTypes)
                  (Params repeat_function) ∧
                ReturnType repeat_function ∈ returnTypes).
  { apply (bool_decide_unpack _). vm_compute. exact I. }
  split; [exact Hok|].
  exact (proj2 (validateFunction_accepts_iff repeat_function) Hok).
Defined.

Lemma validateFunction_reports_first_parameter_witness :
  name_pattern (fn_Name sum_function) = true ∧
  validateFunction sum_function =
    Some (InParameter 1 "2nd" (ParameterNameInvalid "2nd")) ∧
  ∃ p, Params sum_function !! 1 = Some p ∧ "2nd" = param_Name p ∧
       validateParameter p = Some (ParameterNameInvalid "2nd") ∧
       ∀ j q, j < 1 → Params sum_function !! j = Some q →
              validateParameter q = None.
Proof.
  assert (Hname : name_pattern (fn_Name sum_function) = true) by reflexivity.
  assert (Herr : validateFunction sum_function =
                 Some (InParameter 1 "2nd" (ParameterNameInvalid "2nd")))
    by reflexivity.
  split; [exact Hname|]. split; [exact Herr|].
  exact (proj1 (validateFunction_reports_first_parameter sum_function Hname)
           1 "2nd" (ParameterNameInvalid "2nd") Herr).
Defined.

Lemma validateClass_accepts_iff_witness :
  validateClass point_class = None ∧
  name_pattern (class_Name point_class) = true ∧
  Forall (λ p, name_pattern (prop_Name p) = true ∧
               prop_PhpType p ∈ propTypes) (Properties point_class).
Proof.
  assert (Hok : validateClass point_class = None) by reflexivity.
  split; [exact Hok|].
  exact (proj1 (validateClass_accepts_iff point_class) Hok).
Defined.

Lemma validateTypes_narrower_than_validateFunction_witness :
  (validateTypes repeat_function = None ∧
   name_pattern (fn_Name repeat_function) = true ∧
   Forall (λ p, name_pattern (param_Name p) = true)
     (Params repeat_function) ∧
   validateFunction repeat_function = None) ∧
  (php_types_distinct ∧
   Exists (λ p, PhpType p = phpObject) (Params store_function) ∧
   validateFunction store_function = None ∧
   validateTypes store_function ≠ None).
Proof.
  assert (Htypes : validateTypes repeat_function = None) by reflexivity.
  assert (Hname : name_pattern (fn_Name repeat_function) = true)
    by reflexivity.
  assert (Hparams : Forall (λ p, name_pattern (param_Name p) = true)
                      (Params repeat_function)).
  { apply (bool_decide_unpack _). vm_compute. exact I. }
  assert (Hdistinct : php_types_distinct).
  { apply (bool_decide_unpack _). vm_compute. exact I. }
  assert (Hobject : Exists (λ p, PhpType p = phpObject)
                      (Params store_function)).
  { apply Exists_cons_tl, Exists_cons_hd. reflexivity. }
  split.
  - do 3 (split; [assumption|]).
    exact (proj1 (validateTypes_narrower_than_validateFunction
                    repeat_function) Htypes Hname Hparams).
  - split; [exact Hdistinct|]. split; [exact Hobject|].
    split; [reflexivity|].
    exact (proj2 (proj2 (validateTypes_narrower_than_validateFunction
                           store_function) Hdistinct) Hobject).
Defined.

Lemma validateTypes_reports_first_parameter_from_one_witness :
  validateTypes store_function =
    Some (ParameterUnsupported 2 "value" "object") ∧
  ∃ p, (1 ≤ 2) ∧ Params store_function !! (2 - 1) = Some p ∧
       "value" = param_Name p ∧ "object" = PhpType p ∧
       ("object" ∉ supportedTypes) ∧
       ∀ j q, j < 2 - 1 → Params store_function !! j = Some q →
              PhpType q ∈ supportedTypes.
Proof.
  assert (Herr : validateTypes store_function =
                 Some (ParameterUnsupported 2 "value" "object"))
    by reflexivity.
  split; [exact Herr|].
  exact (validateTypes_reports_first_parameter_from_one store_function 2
           "value" "object" Herr).
Defined.

Lemma nullability_of_go_types_witness :
  phpInt ≠ phpString ∧ phpInt ≠ phpArray ∧
  phpTypeToGoType phpInt true = "*int64" ∧
  isCompatibleGoType (phpTypeToGoType phpInt true) "*int" = true ∧
  isCompatibleGoType (phpTypeToGoType phpInt false) "*int" = false.
Proof.
  assert (Hs : phpInt ≠ phpString) by discriminate.
  assert (Ha : phpInt ≠ phpArray) by discriminate.
  assert (Hc : isCompatibleGoType (phpTypeToGoType phpInt true) "*int" = true)
    by reflexivity.
  do 2 (split; [assumption|]).
  destruct (nullability_of_go_types phpInt "*int") as (_ & _ & Hnull).
  destruct (Hnull Hs Ha) as [Hptr Hnot].
  split; [exact Hptr|]. split; [exact Hc|exact (Hnot Hc)].
Defined.


Lemma isMethod_only_shifts_plain_functions_witness :
  ParseFile (String.append "package main"
               (String.append newline (GoFunction get_method))) =
    inr [FuncDeclOf counter_get_decl] ∧
  firstFuncDecl [FuncDeclOf counter_get_decl] = Some counter_get_decl ∧
  hasReceiver counter_get_decl = true ∧
  validateGoFunctionSignatureWithOptions get_method true =
  validateGoFunctionSignatureWithOptions get_method false.
Proof.
  assert (Hparse : ParseFile (String.append "package main"
                      (String.append newline (GoFunction get_method))) =
                   inr [FuncDeclOf counter_get_decl]) by reflexivity.
  assert (Hfirst : firstFuncDecl [FuncDeclOf counter_get_decl] =
                   Some counter_get_decl) by reflexivity.
  assert (Hrecv : hasReceiver counter_get_decl = true) by reflexivity.
  do 3 (split; [assumption|]).
  exact (isMethod_only_shifts_plain_functions get_method
           [FuncDeclOf counter_get_decl] counter_get_decl Hparse Hfirst
           (or_introl Hrecv)).
Defined.


Lemma supported_types_have_go_types_witness :
  phpInt ∈ supportedTypes ∧
  phpTypeToGoType phpInt true ≠ "any" ∧
  php_types_distinct ∧ phpObject ∈ paramTypes ∧ phpObject ∉ supportedTypes ∧
  phpTypeToGoType phpObject true = "*any".
Proof.
  assert (Hint : phpInt ∈ supportedTypes).
  { apply (bool_decide_unpack _). vm_compute. exact I. }
  assert (Hdistinct : php_types_distinct).
  { apply (bool_decide_unpack _). vm_compute. exact I. }
  assert (Hin : phpObject ∈ paramTypes).
  { apply (bool_decide_unpack _). vm_compute. exact I. }
  assert (Hout : phpObject ∉ supportedTypes).
  { apply (bool_decide_unpack _). vm_compute. exact I. }
  split; [exact Hint|].
  split;
    [exact (proj1 (proj1 (supported_types_have_go_types phpInt true) Hint))|].
  do 3 (split; [assumption|]).
  exact (proj2 (proj2 (proj1 (proj2 (supported_types_have_go_types phpObject
                                       true) Hdistinct) Hin Hout))).
Defined.

End ValidatorFixtures.
